(** * simplerouter: a verified model of the route-tree compiler

    The Go package builds a tree of [*Route] nodes with [Use] and [Add] and
    compiles it with [Mount] / [MountAndWalk] into an [http.ServeMux].

    The embedding follows the Go program:
    - a [*Route] is an index into a heap of [Route] structs ([None] is the
      nil pointer), so that [Use] and [Add] mutate a node in place;
    - a slice is a header (array, offset, length, capacity) over a store of
      backing arrays, and [append] writes in place when the capacity
      suffices and allocates a fresh array otherwise;
    - a panic is a result of its own, distinct from running out of fuel;
    - the calls made to code outside the package (the walk callback and
      [ServeMux.Handle]) are recorded in order.

    Part I holds the definitions, Part II the lemmas and theorems. *)

From stdpp Require Import base list strings.
From Stdlib Require Import Lia.

Set Warnings "-register-all".

(** * Part I: the model *)

(** ** Results: normal return, panic, or fuel exhausted *)

Inductive Res (A : Type) : Type :=
| Ok (a : A)
| Panic (msg : string)
| OutOfFuel.
Arguments Ok {A} a.
Arguments Panic {A} msg.
Arguments OutOfFuel {A}.

(** ** Slices over backing arrays *)

Record Slice : Type := mkSlice {
  s_arr : nat;   (* which backing array *)
  s_off : nat;   (* index of the slice's first cell in that array *)
  s_len : nat;
  s_cap : nat
}.

(** The nil slice and the empty literal [[]T{}]: no cells at all. *)
Definition empty_slice : Slice := mkSlice 0 0 0 0.

Section Slices.
Context {E : Type}.

(** The runtime's growth policy: how many cells beyond the needed length a
    reallocating [append] reserves, from the old capacity and the needed
    length.  Any policy is allowed. *)
Variable spare : nat → nat → nat.

(** The zero value of the element type, left in unused cells. *)
Variable zero : E.

Definition array_at (arrs : list (list E)) (a : nat) : list E :=
  default [] (arrs !! a).

Definition slice_elems (arrs : list (list E)) (s : Slice) : list E :=
  take (s_len s) (drop (s_off s) (array_at arrs (s_arr s))).

(** A slice header the runtime can produce: its cells exist. *)
Definition slice_wf (arrs : list (list E)) (s : Slice) : Prop :=
  s_len s ≤ s_cap s ∧
  (s_cap s = 0 ∨
   ∃ cells, arrs !! s_arr s = Some cells ∧ s_off s + s_cap s ≤ length cells).

(** [append(s, xs...)]. *)
Definition go_append (arrs : list (list E)) (s : Slice) (xs : list E)
    : list (list E) * Slice :=
  let n := s_len s + length xs in
  if decide (n ≤ s_cap s) then
    (alter (list_inserts (s_off s + s_len s) xs) (s_arr s) arrs,
     mkSlice (s_arr s) (s_off s) n (s_cap s))
  else
    let c := n + spare (s_cap s) n in
    (arrs ++ [slice_elems arrs s ++ xs ++ replicate (c - n) zero],
     mkSlice (length arrs) 0 n c).

(** *** What an [append] may overwrite

    Cell [i] of array [a] is kept with respect to [s] when it lies outside
    the spare capacity of [s], that is outside the cells between the length
    and the capacity of [s]. *)
Definition cell_kept (s : Slice) (a i : nat) : Prop :=
  a ≠ s_arr s ∨ i < s_off s + s_len s ∨ s_off s + s_cap s ≤ i.

(** [arrs'] is [arrs] after writes to the spare capacity of [s] and
    allocations of fresh arrays. *)
Definition frame (s : Slice) (arrs arrs' : list (list E)) : Prop :=
  length arrs ≤ length arrs' ∧
  ∀ a cells, arrs !! a = Some cells →
    ∃ cells', arrs' !! a = Some cells' ∧ length cells' = length cells ∧
              ∀ i, cell_kept s a i → cells' !! i = cells !! i.

(** The spare capacity of [s], if any, lies in an array allocated at or
    after [base]. *)
Definition priv (base : nat) (s : Slice) : Prop :=
  s_len s = s_cap s ∨ base ≤ s_arr s.

End Slices.

(** ** What the package takes from its environment *)

(** [ServeMux.Handle] belongs to net/http: it panics on the patterns it does
    not accept (malformed, conflicting, ...); [mux_accepts] is its verdict,
    given the registrations already made.  [spare] is the growth policy of
    the runtime's [append]. *)
Class Runtime (HttpHandler : Type) : Type := {
  mux_accepts : list (string * HttpHandler) → string → HttpHandler → bool;
  spare : nat → nat → nat
}.

Section Model.
(** [http.Handler] values are opaque to the package. *)
Context {HttpHandler : Type} {RT : Runtime HttpHandler}.

(** ** The program state *)

(** [type Middleware func(http.Handler) http.Handler]; [None] is nil.  A
    middleware is a pure function from handlers to handlers. *)
Definition Middleware : Type := option (HttpHandler → HttpHandler).

(** [*Route]; [None] is nil. *)
Definition Ptr : Type := option nat.

Record Route : Type := mkRoute {
  Path : string;
  Middlewares : Slice;
  Routes : Slice;
  Handler : option HttpHandler;
  Method : string
}.

(** [type WalkFn func(router *Route, path string, middlewares []Middleware)].
    A callback is user code: it is an observer, identified by a name, and
    each call to it is recorded with the arguments it received. *)
Inductive WalkFn : Type :=
| NilWalkFn
| Callback (name : string).

Definition ServeMux : Type := list (string * HttpHandler).

(** Calls that leave the package, in the order they are made.  The slice a
    callback receives is recorded by its elements at the time of the call. *)
Inductive Event : Type :=
| EvWalk (fn : string) (r : Ptr) (path : string) (middlewares : list Middleware)
| EvHandle (router : nat) (pattern : string) (h : HttpHandler).

Record Store : Type := mkStore {
  heap : list Route;
  mw_arrays : list (list Middleware);
  rt_arrays : list (list Ptr);
  muxes : list ServeMux;
  calls : list Event
}.

(** ** State and panic monad *)

Definition M (A : Type) : Type := Store → Store * Res A.

Definition ret {A} (a : A) : M A := λ σ, (σ, Ok a).

Definition bind {A B} (m : M A) (k : A → M B) : M B :=
  λ σ, match m σ with
       | (σ', Ok a) => k a σ'
       | (σ', Panic msg) => (σ', Panic msg)
       | (σ', OutOfFuel) => (σ', OutOfFuel)
       end.

Notation "'let*' x ':=' c 'in' k" := (bind c (λ x, k))
  (at level 10, x name, c at level 100, k at level 200).

Definition panic {A} (msg : string) : M A := λ σ, (σ, Panic msg).
Definition out_of_fuel {A} : M A := λ σ, (σ, OutOfFuel).

Definition lift {A} (r : Res A) : M A := λ σ, (σ, r).

Fixpoint for_each {A} (l : list A) (body : A → M unit) : M unit :=
  match l with
  | [] => ret tt
  | x :: l => let* _ := body x in for_each l body
  end.

(** ** Primitive operations on the store *)

Definition nil_deref : string := "invalid memory address or nil pointer dereference".

(** [*r] *)
Definition deref (r : Ptr) : M Route :=
  λ σ, match r with
       | Some p => match heap σ !! p with
                   | Some rt => (σ, Ok rt)
                   | None => (σ, Panic nil_deref)
                   end
       | None => (σ, Panic nil_deref)
       end.

(** [*r = rt] *)
Definition assign (r : Ptr) (rt : Route) : M unit :=
  λ σ, match r with
       | Some p =>
           if decide (p < length (heap σ)) then
             (mkStore (<[p:=rt]> (heap σ)) (mw_arrays σ) (rt_arrays σ) (muxes σ) (calls σ),
              Ok tt)
           else (σ, Panic nil_deref)
       | None => (σ, Panic nil_deref)
       end.

(** [&Route{...}] *)
Definition new_route (rt : Route) : M Ptr :=
  λ σ, (mkStore (heap σ ++ [rt]) (mw_arrays σ) (rt_arrays σ) (muxes σ) (calls σ),
        Ok (Some (length (heap σ)))).

Definition read_mws (s : Slice) : M (list Middleware) :=
  λ σ, (σ, Ok (slice_elems (mw_arrays σ) s)).

Definition read_routes (s : Slice) : M (list Ptr) :=
  λ σ, (σ, Ok (slice_elems (rt_arrays σ) s)).

Definition append_mws (s : Slice) (xs : list Middleware) : M Slice :=
  λ σ, let '(arrs, s') := go_append spare None (mw_arrays σ) s xs in
       (mkStore (heap σ) arrs (rt_arrays σ) (muxes σ) (calls σ), Ok s').

Definition append_routes (s : Slice) (xs : list Ptr) : M Slice :=
  λ σ, let '(arrs, s') := go_append spare None (rt_arrays σ) s xs in
       (mkStore (heap σ) (mw_arrays σ) arrs (muxes σ) (calls σ), Ok s').

Definition emit (e : Event) : M unit :=
  λ σ, (mkStore (heap σ) (mw_arrays σ) (rt_arrays σ) (muxes σ) (calls σ ++ [e]), Ok tt).

(** [http.NewServeMux()] *)
Definition NewServeMux : M nat :=
  λ σ, (mkStore (heap σ) (mw_arrays σ) (rt_arrays σ) (muxes σ ++ [[]]) (calls σ),
        Ok (length (muxes σ))).

(** [router.Handle(pattern, h)] *)
Definition mux_Handle (router : nat) (pattern : string) (h : HttpHandler) : M unit :=
  let* _ := emit (EvHandle router pattern h) in
  λ σ, match muxes σ !! router with
       | Some regs =>
           if mux_accepts regs pattern h then
             (mkStore (heap σ) (mw_arrays σ) (rt_arrays σ)
                      (<[router := regs ++ [(pattern, h)]]> (muxes σ)) (calls σ),
              Ok tt)
           else (σ, Panic "http: pattern rejected by ServeMux")
       | None => (σ, Panic nil_deref)
       end.

(** [walkFn(r, path, middlewares)] for a non-nil [walkFn] *)
Definition call_walk (fn : string) (r : Ptr) (path : string) (middlewares : Slice) : M unit :=
  let* mws := read_mws middlewares in
  emit (EvWalk fn r path mws).

(** ** The package *)

(** The loop of [applyMiddleware]: [i] iterations remain, the Go index of
    the next one is [i - 1]. *)
Fixpoint applyMiddleware_loop (mws : list Middleware) (i : nat) (next : HttpHandler)
    : Res HttpHandler :=
  match i with
  | 0 => Ok next
  | S j =>
      match mws !! j with
      | Some (Some x) => applyMiddleware_loop mws j (x next)
      | Some None => Panic nil_deref
      | None => Panic "index out of range"
      end
  end.

Definition applyMiddleware (mws : list Middleware) : HttpHandler → Res HttpHandler :=
  λ next, applyMiddleware_loop mws (length mws) next.

Definition NewRoute (path : string) : M Ptr :=
  new_route (mkRoute path empty_slice empty_slice None "").

(** The loop that opens [Use] and [Add]. *)
Fixpoint reject_nil {A} (msg : string) (xs : list (option A)) : M unit :=
  match xs with
  | [] => ret tt
  | None :: _ => panic msg
  | Some _ :: xs => reject_nil msg xs
  end.

Definition Use (r : Ptr) (middlewares : list Middleware) : M Ptr :=
  let* _ := reject_nil "middlewares parameter cannot contain nil middlewares" middlewares in
  let* rt := deref r in
  let* s := append_mws (Middlewares rt) middlewares in
  let* _ := assign r (mkRoute (Path rt) s (Routes rt) (Handler rt) (Method rt)) in
  ret r.

Definition Add (r : Ptr) (routes : list Ptr) : M Ptr :=
  let* _ := reject_nil "routes parameter cannot contain nil routes" routes in
  let* rt := deref r in
  let* s := append_routes (Routes rt) routes in
  let* _ := assign r (mkRoute (Path rt) (Middlewares rt) s (Handler rt) (Method rt)) in
  ret r.

(** [&Route{Handler: handler, Method: method}] *)
Definition method_route (method : string) (handler : option HttpHandler) : M Ptr :=
  new_route (mkRoute "" empty_slice empty_slice handler method).

Definition Get := method_route "GET".
Definition Head := method_route "HEAD".
Definition Post := method_route "POST".
Definition Put := method_route "PUT".
Definition Patch := method_route "PATCH".
Definition Delete := method_route "DELETE".
Definition Connect := method_route "CONNECT".
Definition Options := method_route "OPTIONS".
Definition Trace := method_route "TRACE".
Definition All := method_route "".

(** [inspectRoute].  The recursion follows the pointers of the heap, which
    may form a cycle, hence the fuel.  The node and its children are read
    once: nothing below writes to the heap or to an array of routes. *)
Fixpoint inspectRoute (fuel : nat) (r : Ptr) (path : string) (middlewares : Slice)
    (router : nat) (walkFn : WalkFn) : M unit :=
  match fuel with
  | 0 => out_of_fuel
  | S fuel =>
      let* rt := deref r in
      let chainedPath := path +:+ Path rt in
      let* own := read_mws (Middlewares rt) in
      let* chainedMiddleware := append_mws middlewares own in
      let* _ := match walkFn with
                | Callback fn => call_walk fn r path middlewares
                | NilWalkFn => ret tt
                end in
      let* _ := match Handler rt with
                | Some h =>
                    let* mws := read_mws chainedMiddleware in
                    let* composed := lift (applyMiddleware mws h) in
                    mux_Handle router ((Method rt +:+ " ") +:+ chainedPath) composed
                | None => ret tt
                end in
      let* routes := read_routes (Routes rt) in
      for_each routes (λ route,
        inspectRoute fuel route chainedPath chainedMiddleware router walkFn)
  end.

Definition Mount (fuel : nat) (r : Ptr) : M nat :=
  let* router := NewServeMux in
  let* _ := inspectRoute fuel r "" empty_slice router NilWalkFn in
  ret router.

Definition MountAndWalk (fuel : nat) (r : Ptr) (walkFn : WalkFn) : M nat :=
  match walkFn with
  | NilWalkFn => panic "walkFn parameter cannot be nil"
  | Callback _ =>
      let* router := NewServeMux in
      let* _ := inspectRoute fuel r "" empty_slice router walkFn in
      ret router
  end.

(** [Mount] and [MountAndWalk] with a callback run the same three steps;
    [compile] names them for the lemmas of Part II. *)
Definition compile (fuel : nat) (r : Ptr) (walkFn : WalkFn) : M nat :=
  let* router := NewServeMux in
  let* _ := inspectRoute fuel r "" empty_slice router walkFn in
  ret router.

(** ** Route trees

    The tree a heap holds below a pointer, read off once and for all: each
    node with its pointer, its own path segment, its own middlewares, its
    handler, its method token and its children in order. *)

Inductive Tree : Type :=
  Node (ptr : nat) (path : string) (mws : list Middleware)
       (handler : option HttpHandler) (method : string) (kids : list Tree).

Definition t_ptr (t : Tree) : nat := let 'Node p _ _ _ _ _ := t in p.
Definition t_path (t : Tree) : string := let 'Node _ s _ _ _ _ := t in s.
Definition t_mws (t : Tree) : list Middleware := let 'Node _ _ m _ _ _ := t in m.
Definition t_handler (t : Tree) : option HttpHandler := let 'Node _ _ _ h _ _ := t in h.
Definition t_method (t : Tree) : string := let 'Node _ _ _ _ m _ := t in m.
Definition t_kids (t : Tree) : list Tree := let 'Node _ _ _ _ _ k := t in k.

Fixpoint height (t : Tree) : nat :=
  match t with
  | Node _ _ _ _ _ kids => S (foldr (λ k n, height k `max` n) 0 kids)
  end.

(** [repr H RA MA r t]: in the heap [H], with the arrays of routes [RA] and
    of middlewares [MA], the pointer [r] is the root of the tree [t]. *)
Inductive repr (H : list Route) (RA : list (list Ptr)) (MA : list (list Middleware))
    : Ptr → Tree → Prop :=
| repr_node p rt kids :
    H !! p = Some rt →
    slice_wf MA (Middlewares rt) →
    Forall2 (repr H RA MA) (slice_elems RA (Routes rt)) kids →
    repr H RA MA (Some p)
      (Node p (Path rt) (slice_elems MA (Middlewares rt)) (Handler rt) (Method rt) kids).

Definition tree_at (σ : Store) (r : Ptr) (t : Tree) : Prop :=
  repr (heap σ) (rt_arrays σ) (mw_arrays σ) r t.

(** A visit is a node together with its ancestors, root first.
    [visits anc t] lists the visits of [t] below the ancestors [anc] in
    pre-order: the node, then the visits of each child from left to right. *)
Fixpoint visits (anc : list Tree) (t : Tree) : list (list Tree * Tree) :=
  (anc, t) :: concat (map (visits (anc ++ [t])) (t_kids t)).

(** Plain concatenation of the path segments of a chain of nodes. *)
Definition join_paths (ns : list Tree) : string :=
  foldr (λ n rest, t_path n +:+ rest) "" ns.

(** Concatenation of the middleware lists of a chain of nodes. *)
Definition join_mws (ns : list Tree) : list Middleware :=
  concat (map t_mws ns).

(** The chain from the root down to and including the visited node. *)
Definition chain (v : list Tree * Tree) : list Tree := v.1 ++ [v.2].

(** *** The calls made at one visit *)

Definition walk_call (walkFn : WalkFn) (v : list Tree * Tree) : list Event :=
  match walkFn with
  | Callback fn => [EvWalk fn (Some (t_ptr v.2)) (join_paths v.1) (join_mws v.1)]
  | NilWalkFn => []
  end.

(** The pattern registered for a visited node. *)
Definition pattern_of (v : list Tree * Tree) : string :=
  t_method v.2 +:+ " " +:+ join_paths (chain v).

Definition handle_call (router : nat) (v : list Tree * Tree) (evs : list Event) : Prop :=
  match t_handler v.2 with
  | Some h =>
      ∃ composed, applyMiddleware (join_mws (chain v)) h = Ok composed ∧
                  evs = [EvHandle router (pattern_of v) composed]
  | None => evs = []
  end.

(** At a visit: the callback, if there is one, then the registration, if the
    node has a handler. *)
Definition visit_calls (router : nat) (walkFn : WalkFn) (v : list Tree * Tree)
    (evs : list Event) : Prop :=
  ∃ hs, handle_call router v hs ∧ evs = walk_call walkFn v ++ hs.

Definition registration (e : Event) : option (string * HttpHandler) :=
  match e with
  | EvHandle _ pattern h => Some (pattern, h)
  | EvWalk _ _ _ _ => None
  end.

(** The handler-bearing visits, each with its handler, in order. *)
Definition bearing (vs : list (list Tree * Tree))
    : list ((list Tree * Tree) * HttpHandler) :=
  omap (λ v, (λ h, (v, h)) <$> t_handler v.2) vs.

(** A registration is the one of a handler-bearing visit: its pattern, and
    the handler wrapped in the middlewares of the chain. *)
Definition registered_for (vh : (list Tree * Tree) * HttpHandler)
    (reg : string * HttpHandler) : Prop :=
  reg.1 = pattern_of vh.1 ∧
  applyMiddleware (join_mws (chain vh.1)) vh.2 = Ok reg.2.

(** ** The traversal as a list of actions

    The calls [inspectRoute] attempts on a tree, in order: the callback on a
    node, the registration of a node's handler with the middlewares to
    compose around it.  Part II proves that [inspectRoute] on a heap does
    what performing this list does. *)
Inductive Action : Type :=
| ActWalk (fn : string) (r : Ptr) (path : string) (mws : list Middleware)
| ActHandle (pattern : string) (mws : list Middleware) (h : HttpHandler).

Fixpoint actions (walkFn : WalkFn) (path : string) (mws : list Middleware) (t : Tree)
    : list Action :=
  match t with
  | Node p seg own h method kids =>
      let chainedPath := path +:+ seg in
      let chained := mws ++ own in
      match walkFn with
      | Callback fn => [ActWalk fn (Some p) path mws]
      | NilWalkFn => []
      end ++
      match h with
      | Some h => [ActHandle ((method +:+ " ") +:+ chainedPath) chained h]
      | None => []
      end ++
      concat (map (actions walkFn chainedPath chained) kids)
  end.

Definition visit_actions (walkFn : WalkFn) (v : list Tree * Tree) : list Action :=
  match walkFn with
  | Callback fn => [ActWalk fn (Some (t_ptr v.2)) (join_paths v.1) (join_mws v.1)]
  | NilWalkFn => []
  end ++
  match t_handler v.2 with
  | Some h =>
      [ActHandle (t_method v.2 +:+ " " +:+ join_paths (chain v)) (join_mws (chain v)) h]
  | None => []
  end.

Definition perform (router : nat) (a : Action) : M unit :=
  match a with
  | ActWalk fn r path mws => emit (EvWalk fn r path mws)
  | ActHandle pattern mws h =>
      let* composed := lift (applyMiddleware mws h) in
      mux_Handle router pattern composed
  end.

Definition exec (router : nat) (acts : list Action) : M unit :=
  for_each acts (perform router).

(** The call an action makes when it is performed without a panic. *)
Definition call_of (router : nat) (a : Action) (e : Event) : Prop :=
  match a with
  | ActWalk fn r path mws => e = EvWalk fn r path mws
  | ActHandle pattern mws h =>
      ∃ composed, applyMiddleware mws h = Ok composed ∧
                  e = EvHandle router pattern composed
  end.

(** The store with its arrays of middlewares replaced. *)
Definition with_mws (A : list (list Middleware)) (σ : Store) : Store :=
  mkStore (heap σ) A (rt_arrays σ) (muxes σ) (calls σ).

Definition lift_mws {A} (arrs : list (list Middleware)) (x : Store * Res A)
    : Store * Res A :=
  (with_mws arrs x.1, x.2).

(** The tree lives in the heap [H], the arrays of routes [RA] and the first
    [base] arrays of middlewares, [MA0]; a traversal may have allocated
    arrays of middlewares beyond them. *)
Definition holds_tree (H : list Route) (RA : list (list Ptr))
    (MA0 : list (list Middleware)) (base : nat) (σ : Store) : Prop :=
  heap σ = H ∧ rt_arrays σ = RA ∧
  take base (mw_arrays σ) = MA0 ∧ base ≤ length (mw_arrays σ).

Definition refines (H : list Route) (RA : list (list Ptr))
    (MA0 : list (list Middleware)) (base router : nat) (walkFn : WalkFn)
    (fuel : nat) : Prop :=
  ∀ t r path s σ,
    repr H RA MA0 r t → holds_tree H RA MA0 base σ →
    slice_wf (mw_arrays σ) s → priv base s →
    height t ≤ fuel →
    ∃ A, frame s (mw_arrays σ) A ∧
      inspectRoute fuel r path s router walkFn σ =
        lift_mws A
          (exec router (actions walkFn path (slice_elems (mw_arrays σ) s) t) σ).

(** *** Notions used to state the properties *)

(** [m(next)] for a middleware value [m]: calling nil panics. *)
Definition call_middleware (m : Middleware) (next : HttpHandler) : Res HttpHandler :=
  match m with
  | Some x => Ok (x next)
  | None => Panic nil_deref
  end.

(** [m0(m1(...mN-1(h)))], evaluated innermost first. *)
Definition nested (mws : list Middleware) (h : HttpHandler) : Res HttpHandler :=
  foldr (λ m acc, match acc with
                  | Ok next => call_middleware m next
                  | Panic msg => Panic msg
                  | OutOfFuel => OutOfFuel
                  end) (Ok h) mws.


(** The calls to the callback among a list of calls. *)
Definition walk_events (evs : list Event) : list Event :=
  omap (λ e, match e with
             | EvWalk _ _ _ _ => Some e
             | EvHandle _ _ _ => None
             end) evs.

Definition slice_wfb {E} (arrs : list (list E)) (s : Slice) : bool :=
  bool_decide (s_len s ≤ s_cap s) &&
  (bool_decide (s_cap s = 0) ||
   match arrs !! s_arr s with
   | Some cells => bool_decide (s_off s + s_cap s ≤ length cells)
   | None => false
   end).

(** Reading the tree below a pointer off a store, when there is one within
    [fuel] levels. *)
Fixpoint read_tree (fuel : nat) (σ : Store) (r : Ptr) : option Tree :=
  match fuel, r with
  | S fuel, Some p =>
      match heap σ !! p with
      | Some rt =>
          if slice_wfb (mw_arrays σ) (Middlewares rt) then
            match mapM (read_tree fuel σ) (slice_elems (rt_arrays σ) (Routes rt)) with
            | Some kids =>
                Some (Node p (Path rt) (slice_elems (mw_arrays σ) (Middlewares rt))
                        (Handler rt) (Method rt) kids)
            | None => None
            end
          else None
      | None => None
      end
  | _, _ => None
  end.

(** The nodes of a tree, as subtrees, in pre-order. *)
Fixpoint subtrees (t : Tree) : list Tree :=
  match t with
  | Node _ _ _ _ _ kids => t :: concat (map subtrees kids)
  end.



(** A run of either entry point from [σ] with outcome [out]: [Mount], which
    passes no callback, or [MountAndWalk] with [walkFn]. *)
Definition mounts (fuel : nat) (r : Ptr) (walkFn : WalkFn) (σ : Store)
    (out : Store * Res nat) : Prop :=
  (walkFn = NilWalkFn ∧ Mount fuel r σ = out) ∨ MountAndWalk fuel r walkFn σ = out.

(** [σ'] is [σ] up to the arrays of middlewares, the calls made and the
    registrations of [router]. *)
Definition quiet (router : nat) (σ σ' : Store) : Prop :=
  heap σ' = heap σ ∧ rt_arrays σ' = rt_arrays σ ∧
  length (muxes σ') = length (muxes σ) ∧
  ∀ m, m ≠ router → muxes σ' !! m = muxes σ !! m.

(** *** Further notions, for the properties of the rest of the package *)


(** No node of the tree has a handler. *)
Definition no_handlers (t : Tree) : Prop :=
  Forall (λ n, t_handler n = None) (subtrees t).

(** Two slice headers that share no cell: one of them has no cell at all, or
    they lie in different arrays. *)
Definition apart (s1 s2 : Slice) : Prop :=
  s_cap s1 = 0 ∨ s_cap s2 = 0 ∨ s_arr s1 ≠ s_arr s2.

(** A node as the builders leave it: its two slices exist and hold no nil. *)
Definition node_ok (σ : Store) (rt : Route) : Prop :=
  slice_wf (mw_arrays σ) (Middlewares rt) ∧ slice_wf (rt_arrays σ) (Routes rt) ∧
  (None ∉ slice_elems (mw_arrays σ) (Middlewares rt)) ∧
  (None ∉ slice_elems (rt_arrays σ) (Routes rt)).

(** A store as the builders leave it: every node is as above, and no two
    nodes share a backing array. *)
Definition well_built (σ : Store) : Prop :=
  (∀ p rt, heap σ !! p = Some rt → node_ok σ rt) ∧
  (∀ p q rt rt', p ≠ q → heap σ !! p = Some rt → heap σ !! q = Some rt' →
     apart (Middlewares rt) (Middlewares rt') ∧ apart (Routes rt) (Routes rt')).

(** The per-method constructors with their method tokens. *)
Definition constructors : list ((option HttpHandler → M Ptr) * string) :=
  [(Get, "GET"); (Head, "HEAD"); (Post, "POST"); (Put, "PUT"); (Patch, "PATCH");
   (Delete, "DELETE"); (Connect, "CONNECT"); (Options, "OPTIONS"); (Trace, "TRACE");
   (All, "")].




End Model.

Notation "'let*' x ':=' c 'in' k" := (bind c (λ x, k))
  (at level 10, x name, c at level 100, k at level 200).

(** ** The pattern as the specification words it

    "<METHOD> <path>", and just "<path>" for the empty method token. *)
Definition claimed_pattern (method path : string) : string :=
  if decide (method = "") then path else method +:+ " " +:+ path.

(** ** Serving, as the tests observe it

    The tests observe a served request through the tracker that their
    middlewares append to and through the body of the response.  A handler
    is modelled by what serving one request with it does to the two. *)
Definition Served : Type := list string * string → list string * string.

(** [middlewareTracker(name, tracker)] of the tests: append the name to the
    tracker, then serve with [next]. *)
Definition middlewareTracker (name : string) : @Middleware Served :=
  Some (λ next w, next (w.1 ++ [name], w.2)).

(** [handlerWriter(response)] of the tests: write the response. *)
Definition handlerWriter (response : string) : Served :=
  λ w, (w.1, w.2 +:+ response).

(** ** Examples

    A permissive router and amortised doubling for [append]; the tree of the
    repository's walk example, with the tests' tracking middlewares and
    writing handlers in place of the example's printing ones; and the tree of
    the test "route with All method handler". *)

Definition doubling (cap needed : nat) : nat :=
  if decide (needed ≤ 2 * cap) then 2 * cap - needed else 0.

#[export] Instance test_runtime : Runtime Served :=
  {| mux_accepts := λ _ _ _, true; spare := doubling |}.

Definition empty_store : @Store Served := mkStore [] [] [] [] [].

Definition build_walk_example : M Ptr :=
  let* api := NewRoute "/api" in
  let* api := Use api [middlewareTracker "generalMiddleware"] in
  let* foo := NewRoute "/foo" in
  let* foo := Use foo [middlewareTracker "fooMiddleware"] in
  let* getFoo := Get (Some (handlerWriter "getFooHandler")) in
  let* getFoo := Use getFoo [middlewareTracker "getFooMiddleware"] in
  let* foo := Add foo [getFoo] in
  let* bar := NewRoute "/bar" in
  let* bar := Use bar [middlewareTracker "barMiddleware"] in
  let* postBar := Post (Some (handlerWriter "postBarHandler")) in
  let* bar := Add bar [postBar] in
  Add api [foo; bar].

Definition walk_store : @Store Served := (build_walk_example empty_store).1.

Definition walk_tree : @Tree Served :=
  Node 0 "/api" [middlewareTracker "generalMiddleware"] None ""
    [Node 1 "/foo" [middlewareTracker "fooMiddleware"] None ""
       [Node 2 "" [middlewareTracker "getFooMiddleware"]
          (Some (handlerWriter "getFooHandler")) "GET" []];
     Node 3 "/bar" [middlewareTracker "barMiddleware"] None ""
       [Node 4 "" [] (Some (handlerWriter "postBarHandler")) "POST" []]].

Definition build_all_example : M Ptr :=
  let* foo := NewRoute "/api/foo" in
  let* get := Get (Some (handlerWriter "foo get")) in
  let* all := All (Some (handlerWriter "foo all")) in
  Add foo [get; all].

Definition all_store : @Store Served := (build_all_example empty_store).1.

Definition all_tree : @Tree Served :=
  Node 0 "/api/foo" [] None ""
    [Node 1 "" [] (Some (handlerWriter "foo get")) "GET" [];
     Node 2 "" [] (Some (handlerWriter "foo all")) "" []].

(** Two sibling handlers below a node whose accumulated middlewares leave
    spare capacity: the second [append] overwrites what the first wrote. *)
Definition build_sibling_example : M Ptr :=
  let* root := NewRoute "/api" in
  let* root := Use root [middlewareTracker "A1"; middlewareTracker "A2";
                         middlewareTracker "A3"] in
  let* foo := NewRoute "/foo" in
  let* foo := Use foo [middlewareTracker "B"] in
  let* get := Get (Some (handlerWriter "get")) in
  let* get := Use get [middlewareTracker "C"] in
  let* post := Post (Some (handlerWriter "post")) in
  let* post := Use post [middlewareTracker "D"] in
  let* foo := Add foo [get; post] in
  Add root [foo].

Definition sibling_store : @Store Served := (build_sibling_example empty_store).1.

(** What a request served by each registration of a router leaves in the
    tracker and in the body. *)
Definition served (σ : @Store Served) (router : nat)
    : list (string * (list string * string)) :=
  map (λ reg, (reg.1, reg.2 ([], ""))) (default [] (muxes σ !! router)).

(** A handler node with a method token above another handler node:
    [Get(h1).Add(NewRoute("/x").Add(Post(h2)))]. *)
Definition build_method_example : M Ptr :=
  let* get := Get (Some (handlerWriter "h1")) in
  let* x := NewRoute "/x" in
  let* post := Post (Some (handlerWriter "h2")) in
  let* x := Add x [post] in
  Add get [x].

Definition method_store : @Store Served := (build_method_example empty_store).1.

Definition method_tree : @Tree Served :=
  Node 0 "" [] (Some (handlerWriter "h1")) "GET"
    [Node 1 "/x" [] None ""
       [Node 2 "" [] (Some (handlerWriter "h2")) "POST" []]].

(** A heap that is not a tree: the same route added twice to one parent. *)
Definition build_shared_example : M Ptr :=
  let* root := NewRoute "/a" in
  let* get := Get (Some (handlerWriter "get")) in
  Add root [get; get].

Definition shared_store : @Store Served := (build_shared_example empty_store).1.

(** A tree without a handler: [NewRoute("/api").Use(m).Add(NewRoute("/v1"))]. *)
Definition build_bare_example : M Ptr :=
  let* api := NewRoute "/api" in
  let* api := Use api [middlewareTracker "m"] in
  let* v1 := NewRoute "/v1" in
  Add api [v1].

Definition bare_store : @Store Served := (build_bare_example empty_store).1.

Definition bare_tree : @Tree Served :=
  Node 0 "/api" [middlewareTracker "m"] None "" [Node 1 "/v1" [] None "" []].

(** A route added to itself: [r := NewRoute("/loop"); r.Add(r)]. *)
Definition build_cycle_example : M Ptr :=
  let* r := NewRoute "/loop" in
  Add r [r].

Definition cycle_store : @Store Served := (build_cycle_example empty_store).1.



(** * Part II: lemmas and theorems *)

(** ** Slices *)

Section SliceFacts.
Context {E : Type}.
Variable spare : nat → nat → nat.
Variable zero : E.

Lemma slice_elems_lookup (arrs : list (list E)) s i :
  slice_elems arrs s !! i =
    if decide (i < s_len s) then array_at arrs (s_arr s) !! (s_off s + i) else None.
Proof. unfold slice_elems. rewrite lookup_take, lookup_drop. done. Qed.

Lemma slice_elems_length (arrs : list (list E)) s :
  slice_wf arrs s → length (slice_elems arrs s) = s_len s.
Proof.
  intros [Hle [Hc | (cells & Hcells & Hb)]]; unfold slice_elems, array_at.
  - rewrite length_take. lia.
  - rewrite Hcells. simpl. rewrite length_take, length_drop. lia.
Qed.

Lemma slice_elems_empty (arrs : list (list E)) : slice_elems arrs empty_slice = [].
Proof. done. Qed.

Lemma empty_slice_wf (arrs : list (list E)) : slice_wf arrs empty_slice.
Proof. split; [done | by left]. Qed.

Lemma frame_refl s (arrs : list (list E)) : frame s arrs arrs.
Proof. split; [done | intros a cells H; exists cells; auto]. Qed.

(** Writes allowed by [c] after writes allowed by [s] are allowed by [s]
    when every cell of the first store kept by [s] is kept by [c]. *)
Lemma frame_compose s c (arrs0 arrs1 arrs2 : list (list E)) :
  frame s arrs0 arrs1 → frame c arrs1 arrs2 →
  (∀ a i, a < length arrs0 → cell_kept s a i → cell_kept c a i) →
  frame s arrs0 arrs2.
Proof.
  intros [Hl1 H1] [Hl2 H2] Hsub. split; [lia |].
  intros a cells Ha.
  destruct (H1 a cells Ha) as (cells1 & Ha1 & Hlen1 & Hk1).
  destruct (H2 a cells1 Ha1) as (cells2 & Ha2 & Hlen2 & Hk2).
  exists cells2. split_and!; [done | lia |].
  intros i Hi. rewrite Hk2, Hk1; [done | done |].
  apply Hsub; [| done]. by eapply lookup_lt_Some.
Qed.

Lemma frame_trans s (arrs0 arrs1 arrs2 : list (list E)) :
  frame s arrs0 arrs1 → frame s arrs1 arrs2 → frame s arrs0 arrs2.
Proof. intros H1 H2. eapply frame_compose; eauto. Qed.

Lemma frame_wf s (arrs arrs' : list (list E)) s2 :
  frame s arrs arrs' → slice_wf arrs s2 → slice_wf arrs' s2.
Proof.
  intros [_ H] [Hle [Hc | (cells & Hcells & Hb)]]; split; auto.
  right. destruct (H _ _ Hcells) as (cells' & ? & Hlen & _).
  exists cells'. split; [done | lia].
Qed.

(** The elements of [s] survive the writes it allows. *)
Lemma frame_elems s (arrs arrs' : list (list E)) :
  frame s arrs arrs' → slice_wf arrs s →
  slice_elems arrs' s = slice_elems arrs s.
Proof.
  intros [_ H] [Hle [Hc | (cells & Hcells & Hb)]].
  - unfold slice_elems. replace (s_len s) with 0 by lia. done.
  - destruct (H _ _ Hcells) as (cells' & Hcells' & Hlen & Hk).
    apply list_eq. intros i. rewrite !slice_elems_lookup.
    case_decide; [| done]. unfold array_at. rewrite Hcells, Hcells'. simpl.
    apply Hk. right. left. lia.
Qed.

(** Arrays older than [base] are untouched by writes that [s] allows,
    when the spare capacity of [s] is private. *)
Lemma frame_take base s (arrs arrs' : list (list E)) :
  frame s arrs arrs' → priv base s → base ≤ length arrs →
  take base arrs' = take base arrs.
Proof.
  intros [Hl H] Hp Hb. apply list_eq. intros a. rewrite !lookup_take.
  case_decide as Ha; [| done].
  destruct (lookup_lt_is_Some_2 arrs a) as [cells Hcells]; [lia |].
  destruct (H _ _ Hcells) as (cells' & Hcells' & Hlen & Hk).
  rewrite Hcells, Hcells'. f_equal. apply list_eq. intros i.
  apply Hk. unfold cell_kept. destruct Hp; lia.
Qed.

Lemma slice_wf_take base (arrs : list (list E)) s :
  slice_wf (take base arrs) s → slice_wf arrs s.
Proof.
  intros [Hle [Hc | (cells & Hcells & Hb)]]; split; auto.
  right. exists cells. split; [| done].
  apply lookup_take_Some in Hcells. tauto.
Qed.

Lemma slice_elems_take base (arrs : list (list E)) s :
  slice_wf (take base arrs) s →
  slice_elems (take base arrs) s = slice_elems arrs s.
Proof.
  intros [Hle [Hc | (cells & Hcells & Hb)]].
  - unfold slice_elems. replace (s_len s) with 0 by lia. done.
  - unfold slice_elems, array_at. rewrite Hcells.
    apply lookup_take_Some in Hcells as [-> _]. done.
Qed.

Section Append.
Variables (arrs arrs' : list (list E)) (s s' : Slice) (xs : list E).
Hypothesis Happ : go_append spare zero arrs s xs = (arrs', s').
Hypothesis Hwf : slice_wf arrs s.

Lemma go_append_len : s_len s' = s_len s + length xs.
Proof.
  unfold go_append in Happ. case_decide; simplify_eq; done.
Qed.

Lemma go_append_wf : slice_wf arrs' s'.
Proof.
  unfold go_append in Happ. case_decide as Hn; simplify_eq; split; simpl; try lia.
  - destruct Hwf as [Hle [Hc | (cells & Hcells & Hb)]]; [by left | right].
    exists (list_inserts (s_off s + s_len s) xs cells). split.
    + rewrite list_lookup_alter_eq, Hcells. done.
    + rewrite length_inserts. done.
  - right. eexists. split; [apply list_lookup_middle; done |].
    rewrite !length_app, length_replicate, slice_elems_length by done. lia.
Qed.

Lemma go_append_elems : slice_elems arrs' s' = slice_elems arrs s ++ xs.
Proof.
  pose proof (slice_elems_length _ _ Hwf) as Hlen.
  unfold go_append in Happ. case_decide as Hn; simplify_eq.
  - destruct Hwf as [Hle [Hc | (cells & Hcells & Hb)]].
    { assert (xs = []) as -> by (destruct xs; simpl in *; [done | lia]).
      unfold slice_elems. simpl. replace (s_len s + 0) with 0 by lia.
      replace (s_len s) with 0 by lia. done. }
    apply list_eq. intros i. rewrite slice_elems_lookup. simpl.
    unfold array_at. rewrite list_lookup_alter_eq, Hcells. simpl.
    destruct (decide (i < s_len s)) as [Hi | Hi].
    + rewrite decide_True by lia. rewrite list_lookup_inserts_lt by lia.
      rewrite lookup_app_l by lia. rewrite slice_elems_lookup, decide_True by done.
      unfold array_at. rewrite Hcells. done.
    + rewrite lookup_app_r by lia. rewrite Hlen. case_decide as Hi2.
      * rewrite list_lookup_inserts by lia. f_equal. lia.
      * symmetry. apply lookup_ge_None. lia.
  - unfold slice_elems at 1. simpl. unfold array_at.
    rewrite list_lookup_middle by done. simpl.
    rewrite (assoc_L (++)). apply take_app_length'.
    rewrite length_app. lia.
Qed.

Lemma go_append_frame : frame s arrs arrs'.
Proof.
  unfold go_append in Happ. case_decide as Hn; simplify_eq; split.
  - rewrite length_alter. done.
  - intros a cells Ha. rewrite list_lookup_alter. case_decide as Heq.
    + subst a. rewrite Ha. simpl. eexists. split_and!; [done | apply length_inserts |].
      intros i [? | [Hi | Hi]]; [done | |].
      * apply list_lookup_inserts_lt. lia.
      * apply list_lookup_inserts_ge. lia.
    + exists cells. auto.
  - rewrite length_app. lia.
  - intros a cells Ha. exists cells. split_and!; [| done | done].
    apply lookup_app_l_Some. done.
Qed.

(** Cells kept by [s] in an array of [arrs] are kept by [s']. *)
Lemma go_append_kept a i :
  a < length arrs → cell_kept s a i → cell_kept s' a i.
Proof.
  unfold go_append in Happ. case_decide as Hn; simplify_eq; unfold cell_kept; simpl; lia.
Qed.

Lemma go_append_priv base :
  base ≤ length arrs → priv base s → priv base s'.
Proof.
  unfold go_append in Happ. case_decide as Hn; simplify_eq; unfold priv; simpl; lia.
Qed.
End Append.
End SliceFacts.

Section Facts.
Context {HttpHandler : Type} {RT : Runtime HttpHandler}.

Implicit Types (σ : @Store HttpHandler) (r : Ptr) (t k : @Tree HttpHandler).
Implicit Types (a : @Action HttpHandler) (acts : list (@Action HttpHandler)).
Implicit Types (walkFn : WalkFn) (v : list (@Tree HttpHandler) * @Tree HttpHandler).
Implicit Types (ns anc kids : list (@Tree HttpHandler)).
Implicit Types (vs : list (list (@Tree HttpHandler) * @Tree HttpHandler)).
Implicit Types (evs : list (@Event HttpHandler)) (evss : list (list (@Event HttpHandler))).
Implicit Types (mws own : list (@Middleware HttpHandler)).
Implicit Types (A B : list (list (@Middleware HttpHandler))).
Implicit Types (rt : @Route HttpHandler) (e : @Event HttpHandler).

(** ** The traversal refines the action list *)

Lemma with_mws_id σ : with_mws (mw_arrays σ) σ = σ.
Proof. by destruct σ. Qed.

Lemma with_mws_twice A B σ : with_mws A (with_mws B σ) = with_mws A σ.
Proof. done. Qed.

Lemma lift_mws_id {X} σ (res : Res X) : lift_mws (mw_arrays σ) (σ, res) = (σ, res).
Proof. unfold lift_mws. simpl. by rewrite with_mws_id. Qed.

Lemma for_each_app {X} (l1 l2 : list X) body σ :
  for_each (l1 ++ l2) body σ = bind (for_each l1 body) (λ _, for_each l2 body) σ.
Proof.
  revert σ. induction l1 as [| x l1 IH]; intros σ; simpl; [done |].
  unfold bind in *. destruct (body x σ) as [σ1 [[] | msg |]]; [| done | done].
  apply IH.
Qed.

Lemma exec_app router acts1 acts2 σ :
  exec router (acts1 ++ acts2) σ =
    match exec router acts1 σ with
    | (σ', Ok _) => exec router acts2 σ'
    | other => other
    end.
Proof.
  unfold exec. rewrite for_each_app. unfold bind.
  by destruct (for_each acts1 (perform router) σ) as [σ1 [[] | msg |]].
Qed.

Lemma perform_with_mws router a A σ :
  perform router a (with_mws A σ) = lift_mws A (perform router a σ).
Proof.
  destruct a as [fn r path mws | pattern mws h]; simpl; [done |].
  unfold bind, lift. destruct (applyMiddleware mws h) as [c | msg |]; [| done | done].
  unfold mux_Handle, bind, emit. simpl.
  destruct (muxes σ !! router) as [regs |]; [| done].
  by destruct (mux_accepts regs pattern c).
Qed.

Lemma exec_with_mws router acts A σ :
  exec router acts (with_mws A σ) = lift_mws A (exec router acts σ).
Proof.
  revert σ. induction acts as [| a acts IH]; intros σ; [done |].
  unfold exec. simpl. unfold bind at 1 2. rewrite perform_with_mws.
  destruct (perform router a σ) as [σ1 [[] | msg |]]; [| done | done].
  apply IH.
Qed.

(** Performing calls leaves the heap and the arrays alone, and never runs
    out of fuel. *)
Lemma perform_frame router a σ σ' res :
  perform router a σ = (σ', res) →
  heap σ' = heap σ ∧ mw_arrays σ' = mw_arrays σ ∧ rt_arrays σ' = rt_arrays σ ∧
  length (muxes σ') = length (muxes σ) ∧ res ≠ OutOfFuel.
Proof.
  destruct a as [fn r path mws | pattern mws h]; simpl.
  - intros [= <- <-]. done.
  - unfold bind, lift. destruct (applyMiddleware_loop mws (length mws) h) as [c | msg |] eqn:Hc.
    + unfold applyMiddleware. rewrite Hc. unfold mux_Handle, bind, emit. simpl.
      destruct (muxes σ !! router) as [regs |]; [| by intros [= <- <-]].
      destruct (mux_accepts regs pattern c); intros [= <- <-]; simpl;
        rewrite ?length_insert; done.
    + unfold applyMiddleware. rewrite Hc. by intros [= <- <-].
    + exfalso. revert h Hc. generalize (length mws) at 1. intros n.
      induction n as [| n IH]; intros h; simpl; [done |].
      destruct (mws !! n) as [[x |] |]; [apply IH | done | done].
Qed.

Lemma exec_frame router acts σ σ' res :
  exec router acts σ = (σ', res) →
  heap σ' = heap σ ∧ mw_arrays σ' = mw_arrays σ ∧ rt_arrays σ' = rt_arrays σ ∧
  length (muxes σ') = length (muxes σ) ∧ res ≠ OutOfFuel.
Proof.
  revert σ. induction acts as [| a acts IH]; intros σ.
  - intros [= <- <-]. done.
  - unfold exec. simpl. unfold bind at 1.
    destruct (perform router a σ) as [σ1 r1] eqn:Hp.
    apply perform_frame in Hp as (? & ? & ? & ? & ?).
    destruct r1 as [[] | msg |]; [| by intros [= <- <-] | done].
    intros He. apply IH in He as (? & ? & ? & ? & ?). split_and!; congruence.
Qed.

Lemma lift_mws_twice {X} (arrs1 arrs2 : list (list (@Middleware HttpHandler)))
    (x : Store * Res X) :
  lift_mws arrs2 (lift_mws arrs1 x) = lift_mws arrs2 x.
Proof. done. Qed.

Lemma height_kids p seg own h m kids fuel :
  height (Node p seg own h m kids) ≤ S fuel → Forall (λ k, height k ≤ fuel) kids.
Proof.
  simpl. intros Hh. apply Nat.succ_le_mono in Hh. revert Hh.
  induction kids as [| k kids IH]; simpl; intros Hh; constructor; [lia |].
  apply IH. lia.
Qed.

Lemma exec_one router a σ : exec router [a] σ = perform router a σ.
Proof.
  unfold exec. simpl. unfold bind, ret.
  by destruct (perform router a σ) as [σ1 [[] | msg |]].
Qed.

Lemma walk_part_exec router walkFn r path s σ :
  match walkFn with
  | Callback fn => call_walk fn r path s
  | NilWalkFn => ret tt
  end σ =
  exec router
    match walkFn with
    | Callback fn => [ActWalk fn r path (slice_elems (mw_arrays σ) s)]
    | NilWalkFn => []
    end σ.
Proof. destruct walkFn; [done |]. by rewrite exec_one. Qed.

Lemma handle_part_exec router (handler : option HttpHandler) pattern c σ :
  match handler with
  | Some h =>
      let* mws := read_mws c in
      let* composed := lift (applyMiddleware mws h) in
      mux_Handle router pattern composed
  | None => ret tt
  end σ =
  exec router
    match handler with
    | Some h => [ActHandle pattern (slice_elems (mw_arrays σ) c) h]
    | None => []
    end σ.
Proof. destruct handler; [| done]. by rewrite exec_one. Qed.

Section Refinement.
Variables (H : list (@Route HttpHandler)) (RA : list (list Ptr)).
Variable MA0 : list (list (@Middleware HttpHandler)).
Variables (base router : nat) (walkFn : WalkFn).

Lemma holds_tree_step s σ A σe :
  holds_tree H RA MA0 base σ → frame s (mw_arrays σ) A → priv base s →
  heap σe = heap σ → rt_arrays σe = rt_arrays σ →
  holds_tree H RA MA0 base (with_mws A σe).
Proof.
  intros (? & ? & HMA & Hb) Hf Hp ? ?.
  pose proof (frame_take _ _ _ _ Hf Hp Hb) as Ht.
  destruct Hf as [Hl _].
  unfold holds_tree. simpl. split_and!; [congruence | congruence | congruence | lia].
Qed.

Lemma children_exec fuel (IH : refines H RA MA0 base router walkFn fuel) :
  ∀ ptrs kids path c σ,
    Forall2 (repr H RA MA0) ptrs kids → holds_tree H RA MA0 base σ →
    slice_wf (mw_arrays σ) c → priv base c →
    Forall (λ k, height k ≤ fuel) kids →
    ∃ A, frame c (mw_arrays σ) A ∧
      for_each ptrs (λ route, inspectRoute fuel route path c router walkFn) σ =
        lift_mws A
          (exec router
             (concat (map (actions walkFn path (slice_elems (mw_arrays σ) c)) kids)) σ).
Proof.
  intros ptrs kids path c σ Hkids. revert σ.
  induction Hkids as [| r k ptrs kids Hk Hkids IHkids]; intros σ Hσ Hwf Hp Hh.
  - exists (mw_arrays σ). split; [apply frame_refl |].
    unfold lift_mws. simpl. by rewrite with_mws_id.
  - apply Forall_cons in Hh as [Hhk Hh].
    destruct (IH k r path c σ Hk Hσ Hwf Hp Hhk) as (A1 & Hf1 & E1).
    simpl. rewrite exec_app. unfold bind at 1. rewrite E1.
    destruct (exec router (actions walkFn path (slice_elems (mw_arrays σ) c) k) σ)
      as [σe res] eqn:He.
    unfold lift_mws at 1. simpl.
    destruct res as [[] | msg |]; [| by exists A1 | by exists A1].
    pose proof He as (? & ? & ? & ? & ?)%exec_frame.
    assert (holds_tree H RA MA0 base (with_mws A1 σe)) as Hσ1 by (by eapply holds_tree_step).
    destruct (IHkids (with_mws A1 σe) Hσ1) as (A2 & Hf2 & E2); simpl.
    { eapply frame_wf; eauto. } { done. } { done. }
    exists A2. split; [eapply frame_trans; eauto |].
    rewrite E2. simpl.
    rewrite (frame_elems _ _ _ Hf1 Hwf).
    rewrite exec_with_mws. apply lift_mws_twice.
Qed.

Lemma inspectRoute_exec fuel : refines H RA MA0 base router walkFn fuel.
Proof.
  induction fuel as [| fuel IH]; intros t r path s σ Hrepr Hσ Hwf Hp Hh.
  { destruct t. simpl in Hh. lia. }
  destruct Hrepr as [p rt kids Hlook Hmwf Hkids].
  pose proof Hσ as (HH & HRA & HMA & Hb).
  apply height_kids in Hh.
  cbn [inspectRoute actions].
  unfold bind at 1. unfold deref. rewrite HH, Hlook.
  unfold bind at 1. unfold read_mws at 1.
  unfold bind at 1. unfold append_mws.
  rewrite <- HMA in Hmwf |- *. rewrite (slice_elems_take _ _ _ Hmwf).
  set (own := slice_elems (mw_arrays σ) (Middlewares rt)).
  set (acc := slice_elems (mw_arrays σ) s).
  destruct (go_append spare None (mw_arrays σ) s own) as [A1 c] eqn:Happ.
  pose proof (go_append_frame _ _ _ _ _ _ _ Happ) as Hf1.
  pose proof (go_append_wf _ _ _ _ _ _ _ Happ Hwf) as Hwfc.
  pose proof (go_append_elems _ _ _ _ _ _ _ Happ Hwf) as Helc.
  pose proof (go_append_priv _ _ _ _ _ _ _ Happ base Hb Hp) as Hpc.
  fold (with_mws A1 σ).
  assert (@slice_elems Middleware A1 s = acc) as Hacc by (by apply frame_elems).
  assert (@slice_elems Middleware A1 c = acc ++ own) as Hchained by done.
  unfold bind at 1. rewrite (walk_part_exec router), exec_with_mws. simpl (mw_arrays _).
  rewrite Hacc, exec_app.
  destruct (exec router _ σ) as [σa ra] eqn:Ha.
  pose proof Ha as (? & ? & ? & ? & ?)%exec_frame.
  unfold lift_mws at 1. simpl.
  destruct ra as [[] | msg |]; [| by exists A1 | by exists A1].
  unfold bind at 1. rewrite handle_part_exec, exec_with_mws. simpl (mw_arrays _).
  rewrite Hchained, exec_app.
  destruct (exec router _ σa) as [σb rb] eqn:Hb'.
  pose proof Hb' as (? & ? & ? & ? & ?)%exec_frame.
  unfold lift_mws at 1. simpl.
  destruct rb as [[] | msg |]; [| by exists A1 | by exists A1].
  unfold bind at 1. unfold read_routes at 1. simpl (rt_arrays _).
  replace (rt_arrays σb) with RA by congruence.
  assert (holds_tree H RA MA0 base (with_mws A1 σb)) as Hσb
    by (eapply holds_tree_step; eauto; congruence).
  destruct (children_exec fuel IH _ _ (path +:+ Path rt) c _ Hkids Hσb)
    as (A2 & Hf2 & E2); [done | done | done |].
  exists A2. split.
  { eapply frame_compose; eauto. intros a i. eapply go_append_kept; eauto. }
  rewrite E2. simpl (mw_arrays _). rewrite Hchained.
  rewrite exec_with_mws. apply lift_mws_twice.
Qed.

End Refinement.

(** ** Visits: the nodes of a tree with their ancestors *)

Lemma Tree_forall_ind (P : Tree → Prop) :
  (∀ p seg own h m kids, Forall P kids → P (Node p seg own h m kids)) →
  ∀ t, P t.
Proof.
  intros step. fix go 1. intros [p seg own h m kids]. apply step.
  induction kids as [| k kids IHkids]; constructor; [apply go | apply IHkids].
Qed.

Lemma string_app_assoc (a b c : string) : (a +:+ b) +:+ c = a +:+ b +:+ c.
Proof.
  induction a as [| x a IH]; [done |].
  change (String x ((a +:+ b) +:+ c) = String x (a +:+ b +:+ c)). by rewrite IH.
Qed.

Lemma string_app_empty_r (a : string) : a +:+ "" = a.
Proof.
  induction a as [| x a IH]; [done |].
  change (String x (a +:+ "") = String x a). by rewrite IH.
Qed.

Lemma string_app_length (a b : string) :
  String.length (a +:+ b) = String.length a + String.length b.
Proof.
  induction a as [| x a IH]; [done |].
  change (S (String.length (a +:+ b)) = S (String.length a + String.length b)).
  by rewrite IH.
Qed.

Lemma join_paths_snoc ns n : join_paths (ns ++ [n]) = join_paths ns +:+ t_path n.
Proof.
  unfold join_paths. induction ns as [| k ns IH]; cbn [foldr app].
  - apply string_app_empty_r.
  - by rewrite IH, string_app_assoc.
Qed.

Lemma join_mws_snoc ns n : join_mws (ns ++ [n]) = join_mws ns ++ t_mws n.
Proof.
  unfold join_mws. rewrite map_app, concat_app. simpl. by rewrite (right_id_L [] (++)).
Qed.

Lemma actions_visits walkFn t : ∀ anc,
  actions walkFn (join_paths anc) (join_mws anc) t =
    concat (map (visit_actions walkFn) (visits anc t)).
Proof.
  induction t as [p seg own h m kids IH] using Tree_forall_ind. intros anc.
  cbn [actions visits map concat t_kids].
  unfold visit_actions at 1, chain. cbn [fst snd t_ptr t_handler t_method].
  rewrite join_paths_snoc, join_mws_snoc. cbn [t_path t_mws].
  rewrite (string_app_assoc m " " (join_paths anc +:+ seg)).
  rewrite <- !(assoc_L (++)). do 2 f_equal.
  replace (join_paths anc +:+ seg)
    with (join_paths (anc ++ [Node p seg own h m kids])) by apply join_paths_snoc.
  replace (join_mws anc ++ own)
    with (join_mws (anc ++ [Node p seg own h m kids])) by apply join_mws_snoc.
  generalize (anc ++ [Node p seg own h m kids]). intros anc'.
  induction IH as [| k kids Hk _ IHkids]; [done |].
  cbn [map concat]. rewrite map_app, concat_app, Hk, IHkids. done.
Qed.

(** ** The calls of a successful run *)

Lemma perform_ok router a σ σ' regs :
  perform router a σ = (σ', Ok tt) → muxes σ !! router = Some regs →
  ∃ e, call_of router a e ∧ calls σ' = calls σ ++ [e] ∧
       muxes σ' = <[router := regs ++ omap registration [e]]> (muxes σ).
Proof.
  intros Hp Hm. destruct a as [fn r path mws | pattern mws h]; simpl in Hp.
  - injection Hp as <-. eexists. split_and!; [done | done |]. simpl.
    rewrite (right_id_L [] (++)). symmetry. by apply list_insert_id.
  - unfold bind, lift in Hp.
    destruct (applyMiddleware mws h) as [c | msg |] eqn:Hc; [| done | done].
    unfold mux_Handle, bind, emit in Hp. simpl in Hp. rewrite Hm in Hp.
    destruct (mux_accepts regs pattern c); [| done].
    injection Hp as <-. exists (EvHandle router pattern c). simpl. eauto.
Qed.

Lemma exec_ok router acts : ∀ σ σ' regs,
  exec router acts σ = (σ', Ok tt) → muxes σ !! router = Some regs →
  ∃ evs, Forall2 (call_of router) acts evs ∧ calls σ' = calls σ ++ evs ∧
         muxes σ' = <[router := regs ++ omap registration evs]> (muxes σ).
Proof.
  induction acts as [| a acts IH]; intros σ σ' regs He Hm.
  - injection He as <-. exists []. split_and!; [constructor | |].
    + by rewrite (right_id_L [] (++)).
    + simpl. rewrite (right_id_L [] (++)). symmetry. by apply list_insert_id.
  - unfold exec in He. simpl in He. unfold bind in He.
    destruct (perform router a σ) as [σ1 [[] | msg |]] eqn:Hp; [| done | done].
    destruct (perform_ok _ _ _ _ _ Hp Hm) as (e & Hcall & Hcalls & Hmux).
    assert (muxes σ1 !! router = Some (regs ++ omap registration [e])) as Hm1.
    { rewrite Hmux. apply list_lookup_insert_eq. by eapply lookup_lt_Some. }
    destruct (IH _ _ _ He Hm1) as (evs & Hall & Hcalls' & Hmux').
    exists (e :: evs). split_and!; [by constructor | |].
    + rewrite Hcalls', Hcalls, <- (assoc_L (++)). done.
    + rewrite Hmux', Hmux, list_insert_insert_eq, <- (assoc_L (++)), <- omap_app. done.
Qed.

Lemma Forall2_concat_inv_l {X Y} (P : X → Y → Prop) (ls : list (list X)) (k : list Y) :
  Forall2 P (concat ls) k →
  ∃ ks, Forall2 (Forall2 P) ls ks ∧ k = concat ks.
Proof.
  revert k. induction ls as [| l ls IH]; intros k Hk; simpl in Hk.
  - apply Forall2_nil_inv_l in Hk as ->. exists []. split; [constructor | done].
  - apply Forall2_app_inv_l in Hk as (k1 & k2 & H1 & H2 & ->).
    destruct (IH _ H2) as (ks & Hks & ->).
    exists (k1 :: ks). split; [by constructor | done].
Qed.

Lemma Forall2_map_inv_l {X Y Z} (P : Y → Z → Prop) (f : X → Y) (l : list X) (k : list Z) :
  Forall2 P (map f l) k → Forall2 (λ x y, P (f x) y) l k.
Proof.
  revert k. induction l as [| x l IH]; intros k Hk; simpl in Hk.
  - apply Forall2_nil_inv_l in Hk as ->. constructor.
  - apply Forall2_cons_inv_l in Hk as (y & k' & ? & ? & ->). constructor; auto.
Qed.


Lemma visit_actions_calls router walkFn v evs :
  Forall2 (call_of router) (visit_actions walkFn v) evs →
  visit_calls router walkFn v evs.
Proof.
  unfold visit_actions, visit_calls, walk_call, handle_call, pattern_of.
  intros (ws & hs & Hw & Hh & ->)%Forall2_app_inv_l. exists hs. split.
  - destruct (t_handler v.2) as [h |].
    + apply Forall2_cons_inv_l in Hh as (e & hs' & Hc & ->%Forall2_nil_inv_l & ->).
      destruct Hc as (c & ? & ->). eauto.
    + by apply Forall2_nil_inv_l in Hh.
  - f_equal. destruct walkFn as [| fn].
    + by apply Forall2_nil_inv_l in Hw.
    + apply Forall2_cons_inv_l in Hw as (e & ws' & Hc & ->%Forall2_nil_inv_l & ->).
      simpl in Hc. by subst.
Qed.

Lemma visit_calls_registrations router walkFn vs evss :
  Forall2 (visit_calls router walkFn) vs evss →
  Forall2 registered_for (bearing vs) (omap registration (concat evss)).
Proof.
  induction 1 as [| v evs vs evss (hs & Hh & ->) _ IH]; [constructor |].
  unfold bearing in *. cbn [concat]. rewrite !omap_app.
  assert (omap registration (walk_call walkFn v) = []) as ->
    by (by destruct walkFn).
  cbn [omap list_omap app]. unfold handle_call in Hh.
  destruct (t_handler v.2) as [h |]; simpl.
  - destruct Hh as (c & Hc & ->). simpl. constructor; [| done]. by split.
  - subst hs. done.
Qed.

(** ** What a traversal leaves alone, on any heap

    No tree is assumed here: the heap may share nodes or hold a cycle, and
    the fuel may run out. *)

Lemma quiet_refl router σ : quiet router σ σ.
Proof. done. Qed.

Lemma quiet_trans router σ1 σ2 σ3 :
  quiet router σ1 σ2 → quiet router σ2 σ3 → quiet router σ1 σ3.
Proof.
  intros (? & ? & ? & Hfst) (? & ? & ? & Hsnd).
  split_and!; [congruence | congruence | congruence |].
  intros m Hm. rewrite Hsnd, Hfst; done.
Qed.

Lemma quiet_with_mws router A σ σ' : quiet router σ σ' → quiet router (with_mws A σ) σ'.
Proof. done. Qed.

Lemma perform_quiet router a σ σ' res :
  perform router a σ = (σ', res) → quiet router σ σ' ∧ mw_arrays σ' = mw_arrays σ.
Proof.
  destruct a as [fn r path mws | pattern mws h]; simpl.
  - by intros [= <- <-].
  - unfold bind, lift. destruct (applyMiddleware mws h) as [c | msg |];
      [| by intros [= <- <-] | by intros [= <- <-]].
    unfold mux_Handle, bind, emit. simpl.
    destruct (muxes σ !! router) as [regs |]; [| by intros [= <- <-]].
    destruct (mux_accepts regs pattern c); intros [= <- <-]; [| done].
    split; [| done]. split_and!; simpl; [done | done | by rewrite length_insert |].
    intros m Hm. by apply list_lookup_insert_ne.
Qed.

Lemma exec_quiet router acts σ σ' res :
  exec router acts σ = (σ', res) → quiet router σ σ' ∧ mw_arrays σ' = mw_arrays σ.
Proof.
  revert σ. induction acts as [| a acts IH]; intros σ.
  - by intros [= <- <-].
  - unfold exec. simpl. unfold bind at 1.
    destruct (perform router a σ) as [σ1 r1] eqn:Hp.
    apply perform_quiet in Hp as [Hq Hm].
    destruct r1 as [[] | msg |]; [| by intros [= <- <-] | by intros [= <- <-]].
    intros He. apply IH in He as [Hq' Hm']. split; [| congruence].
    by eapply quiet_trans.
Qed.

Lemma inspectRoute_quiet fuel : ∀ r path s router walkFn σ σ' res,
  inspectRoute fuel r path s router walkFn σ = (σ', res) →
  quiet router σ σ' ∧ frame s (mw_arrays σ) (mw_arrays σ').
Proof.
  induction fuel as [| fuel IH]; intros r path s router walkFn σ σ' res.
  { intros [= <- <-]. split; [done | apply frame_refl]. }
  cbn [inspectRoute]. unfold bind at 1, deref.
  destruct r as [p |]; [| intros [= <- <-]; split; [done | apply frame_refl]].
  destruct (heap σ !! p) as [rt |]; [| intros [= <- <-]; split; [done | apply frame_refl]].
  unfold bind at 1. unfold read_mws at 1. unfold bind at 1. unfold append_mws.
  destruct (go_append spare None (mw_arrays σ) s _) as [A1 c] eqn:Happ.
  pose proof (go_append_frame _ _ _ _ _ _ _ Happ) as Hf1.
  fold (with_mws A1 σ).
  unfold bind at 1. rewrite (walk_part_exec router).
  destruct (exec router _ (with_mws A1 σ)) as [σa ra] eqn:Ha.
  apply exec_quiet in Ha as [Hqa Hma]. simpl in Hma.
  change (quiet router σ σa) in Hqa. rewrite <- Hma in Hf1.
  destruct ra as [[] | msg |];
    [| by intros [= <- <-] | by intros [= <- <-]].
  unfold bind at 1. rewrite handle_part_exec.
  destruct (exec router _ σa) as [σb rb] eqn:Hb.
  apply exec_quiet in Hb as [Hqb Hmb].
  assert (quiet router σ σb) as Hq by (eapply quiet_trans; eauto).
  rewrite <- Hmb in Hf1.
  destruct rb as [[] | msg |];
    [| by intros [= <- <-] | by intros [= <- <-]].
  unfold bind at 1. unfold read_routes at 1.
  generalize (slice_elems (rt_arrays σb) (Routes rt)). intros ptrs Hloop.
  assert (quiet router σb σ' ∧ frame c (mw_arrays σb) (mw_arrays σ')) as [Hq' Hf'].
  { clear -IH Hloop. revert σb Hloop.
    induction ptrs as [| r ptrs IHptrs]; intros σb.
    - intros [= <- <-]. split; [done | apply frame_refl].
    - simpl. unfold bind at 1.
      destruct (inspectRoute fuel r _ c router walkFn σb) as [σ1 r1] eqn:H1.
      apply IH in H1 as [Hq1 Hf1].
      destruct r1 as [[] | msg |];
        [| by intros [= <- <-] | by intros [= <- <-]].
      intros [Hq2 Hf2]%IHptrs. split.
      + by eapply quiet_trans.
      + by eapply frame_trans. }
  split; [by eapply quiet_trans |].
  eapply frame_compose; [exact Hf1 | exact Hf' |].
  intros a i. eapply go_append_kept; eauto.
Qed.

(** A slice without spare capacity allows no write at all. *)
Lemma frame_full s (arrs arrs' : list (list (@Middleware HttpHandler))) :
  frame s arrs arrs' → s_len s = s_cap s → ∃ extra, arrs' = arrs ++ extra.
Proof.
  intros Hf Hs. exists (drop (length arrs) arrs').
  rewrite <- (take_drop (length arrs) arrs') at 1. f_equal.
  rewrite (frame_take (length arrs) s arrs arrs'); [by rewrite take_ge | done | | done].
  by left.
Qed.

(** ** Mounting *)

Lemma Mount_compile fuel r : Mount fuel r = compile fuel r NilWalkFn.
Proof. done. Qed.

Lemma MountAndWalk_compile fuel r fn :
  MountAndWalk fuel r (Callback fn) = compile fuel r (Callback fn).
Proof. done. Qed.

(** On any heap: the tree and the routers that existed are left as they
    were, and the router returned is a new one. *)
Lemma compile_quiet fuel r walkFn σ σ' res :
  compile fuel r walkFn σ = (σ', res) →
  heap σ' = heap σ ∧ rt_arrays σ' = rt_arrays σ ∧
  (∃ extra, mw_arrays σ' = mw_arrays σ ++ extra) ∧
  (∃ regs, muxes σ' = muxes σ ++ [regs]) ∧
  ∀ m, res = Ok m → m = length (muxes σ).
Proof.
  unfold compile, bind at 1, NewServeMux. unfold bind at 1.
  destruct (inspectRoute _ _ _ _ _ _ _) as [σ1 r1] eqn:Hi.
  apply inspectRoute_quiet in Hi as [(HH & HRA & Hlen & Hother) Hf]. simpl in *.
  intros Hres.
  assert (σ' = σ1) as -> by (destruct r1; by injection Hres).
  split_and!; [done | done | | |].
  - eapply frame_full; eauto.
  - rewrite length_app in Hlen. simpl in Hlen.
    destruct (lookup_lt_is_Some_2 (muxes σ1) (length (muxes σ))) as [regs Hregs]; [lia |].
    exists regs. apply list_eq. intros m.
    destruct (decide (m = length (muxes σ))) as [-> | Hm].
    + by rewrite Hregs, list_lookup_middle.
    + rewrite Hother by done. rewrite !lookup_app.
      destruct (muxes σ !! m) eqn:E; [done |]. apply lookup_ge_None in E.
      destruct (m - length (muxes σ)) eqn:?; [lia | done].
  - intros m ->. unfold ret in Hres. destruct r1; by simplify_eq.
Qed.

Section Compiled.
Variables (σ : @Store HttpHandler) (r : Ptr) (t : @Tree HttpHandler).
Variables (fuel : nat) (walkFn : WalkFn).
Hypothesis Htree : tree_at σ r t.
Hypothesis Hfuel : height t ≤ fuel.

Let router : nat := length (muxes σ).
Let σ0 : Store :=
  mkStore (heap σ) (mw_arrays σ) (rt_arrays σ) (muxes σ ++ [[]]) (calls σ).

Lemma compile_exec :
  ∃ A, compile fuel r walkFn σ =
    match exec router (concat (map (visit_actions walkFn) (visits [] t))) σ0 with
    | (σe, Ok _) => (with_mws A σe, Ok router)
    | (σe, Panic msg) => (with_mws A σe, Panic msg)
    | (σe, OutOfFuel) => (with_mws A σe, OutOfFuel)
    end.
Proof.
  destruct (inspectRoute_exec (heap σ) (rt_arrays σ) (mw_arrays σ)
              (length (mw_arrays σ)) router walkFn fuel t r "" empty_slice σ0)
    as (A & _ & E); [done | | apply empty_slice_wf | by left | done |].
  { split_and!; [done | done | | done]. by apply take_ge. }
  exists A. unfold compile, bind at 1, NewServeMux. fold router σ0.
  unfold bind at 1. rewrite E.
  change (slice_elems (mw_arrays σ0) empty_slice) with (@join_mws HttpHandler []).
  change "" with (@join_paths HttpHandler []). rewrite actions_visits.
  generalize (exec router (concat (map (visit_actions walkFn) (visits [] t))) σ0).
  by intros [σe [[] | msg |]].
Qed.

(** With fuel for the height of the tree, the run ends: it returns or
    panics. *)
Lemma compile_total : (compile fuel r walkFn σ).2 ≠ OutOfFuel.
Proof.
  destruct compile_exec as (A & ->).
  destruct (exec router _ σ0) as [σe res] eqn:He.
  apply exec_frame in He as (_ & _ & _ & _ & ?).
  by destruct res as [[] | msg |].
Qed.

Lemma compile_ok σ' m :
  compile fuel r walkFn σ = (σ', Ok m) →
  ∃ evss, Forall2 (visit_calls m walkFn) (visits [] t) evss ∧
          calls σ' = calls σ ++ concat evss ∧
          muxes σ' = muxes σ ++ [omap registration (concat evss)].
Proof.
  destruct compile_exec as (A & ->).
  destruct (exec router _ σ0) as [σe [[] | msg |]] eqn:He; [| done | done].
  intros [= <- <-].
  destruct (exec_ok _ _ _ _ [] He) as (evs & Hall & Hcalls & Hmux).
  { by apply list_lookup_middle. }
  apply Forall2_concat_inv_l in Hall as (evss & Hall & ->).
  exists evss. split_and!; simpl.
  - apply Forall2_map_inv_l in Hall.
    eapply Forall2_impl; [exact Hall |]. intros v evs. apply visit_actions_calls.
  - done.
  - rewrite Hmux. simpl. unfold router.
    rewrite insert_app_r_alt, Nat.sub_diag by done. done.
Qed.
End Compiled.

Lemma mounts_compile fuel r walkFn σ σ' m :
  mounts fuel r walkFn σ (σ', Ok m) → compile fuel r walkFn σ = (σ', Ok m).
Proof.
  intros [[-> Hm] | Hm]; [done |]. by destruct walkFn.
Qed.

Lemma mounts_total fuel r walkFn σ t σ' res :
  tree_at σ r t → height t ≤ fuel →
  mounts fuel r walkFn σ (σ', res) → res ≠ OutOfFuel.
Proof.
  intros Ht Hf Hm.
  assert (res = (compile fuel r walkFn σ).2 ∨ ∃ msg, res = Panic msg) as [-> | [msg ->]].
  { destruct Hm as [[-> Hm] | Hm].
    - left. rewrite <- Mount_compile, Hm. done.
    - destruct walkFn as [| fn].
      + right. injection Hm as _ <-. eauto.
      + left. rewrite <- MountAndWalk_compile, Hm. done. }
  - by eapply compile_total.
  - done.
Qed.

(** The calls and the registrations of a run that returns. *)
Lemma mounted_calls fuel r walkFn σ t σ' m :
  tree_at σ r t → height t ≤ fuel →
  mounts fuel r walkFn σ (σ', Ok m) →
  m = length (muxes σ) ∧
  ∃ evss, Forall2 (visit_calls m walkFn) (visits [] t) evss ∧
          calls σ' = calls σ ++ concat evss ∧
          muxes σ' = muxes σ ++ [omap registration (concat evss)].
Proof.
  intros Ht Hf Hm%mounts_compile. split.
  - by eapply compile_quiet.
  - by eapply compile_ok.
Qed.

Lemma mounted_registrations fuel r walkFn σ t σ' m :
  tree_at σ r t → height t ≤ fuel →
  mounts fuel r walkFn σ (σ', Ok m) →
  ∃ regs, muxes σ' !! m = Some regs ∧
          Forall2 registered_for (bearing (visits [] t)) regs.
Proof.
  intros Ht Hf Hm.
  destruct (mounted_calls _ _ _ _ _ _ _ Ht Hf Hm) as (-> & evss & Hall & _ & Hmux).
  eexists. split.
  - rewrite Hmux. by apply list_lookup_middle.
  - by eapply visit_calls_registrations.
Qed.



(** A tree of a store is still there after allocations of arrays of
    middlewares. *)
Lemma repr_extend (H : list (@Route HttpHandler)) (RA : list (list Ptr))
    (MA extra : list (list (@Middleware HttpHandler))) t :
  ∀ r, repr H RA MA r t → repr H RA (MA ++ extra) r t.
Proof.
  assert (∀ s, slice_wf MA s → slice_wf (MA ++ extra) s) as Hwf.
  { intros s [Hle [Hc | (cells & Hcells & Hb)]]; split; auto.
    right. exists cells. split; [| done]. by apply lookup_app_l_Some. }
  assert (∀ s, slice_wf MA s → slice_elems (MA ++ extra) s = slice_elems MA s) as Hel.
  { intros s [Hle [Hc | (cells & Hcells & Hb)]]; unfold slice_elems.
    - replace (s_len s) with 0 by lia. done.
    - unfold array_at. by rewrite (lookup_app_l_Some _ _ _ _ Hcells), Hcells. }
  induction t as [p seg own h m kids IH] using Tree_forall_ind.
  intros r Hr. inversion Hr as [p' rt kids' Hp Hs Hkids]; subst.
  rewrite <- (Hel _ Hs). constructor; [done | auto |].
  clear Hr. induction Hkids as [| r k ptrs kids Hk _ IHkids]; constructor.
  - apply Forall_cons in IH as [IHk _]. auto.
  - apply Forall_cons in IH as [_ IH]. auto.
Qed.

(** On any heap, a run of either entry point leaves the heap, the arrays of
    routes, the arrays of middlewares and the routers that existed as they
    were; what it adds comes after them. *)
Lemma mounts_quiet fuel r walkFn σ σ' res :
  mounts fuel r walkFn σ (σ', res) →
  heap σ' = heap σ ∧ rt_arrays σ' = rt_arrays σ ∧
  (∃ extra, mw_arrays σ' = mw_arrays σ ++ extra) ∧
  (∃ new, muxes σ' = muxes σ ++ new) ∧
  ∀ m, res = Ok m → m = length (muxes σ) ∧ is_Some (muxes σ' !! m).
Proof.
  intros Hm.
  assert (compile fuel r walkFn σ = (σ', res) ∨ (σ' = σ ∧ ∃ msg, res = Panic msg))
    as [Hc | [-> [msg ->]]].
  { destruct Hm as [[-> Hm] | Hm]; [by left |].
    destruct walkFn as [| fn]; [right | by left].
    injection Hm as <- <-. eauto. }
  - destruct (compile_quiet _ _ _ _ _ _ Hc) as (? & ? & ? & [regs Hregs] & Hres).
    split_and!; [done | done | done | by exists [regs] |].
    intros m ->%Hres. split; [done |]. rewrite Hregs.
    exists regs. by apply list_lookup_middle.
  - split_and!; [done | done | | | done].
    + exists []. by rewrite (right_id_L [] (++)).
    + exists []. by rewrite (right_id_L [] (++)).
Qed.

Lemma Use_muxes r mws σ σ' res : Use r mws σ = (σ', res) → muxes σ' = muxes σ.
Proof.
  unfold Use, bind at 1.
  destruct (reject_nil _ mws σ) as [σ1 r1] eqn:Hrej.
  assert (σ1 = σ) as ->.
  { clear -Hrej. induction mws as [| [x |] mws IH]; simpl in Hrej; [| auto |];
      by injection Hrej. }
  destruct r1 as [[] | msg |]; [| by intros [= <- _] | by intros [= <- _]].
  unfold bind at 1, deref.
  destruct r as [p |]; [| by intros [= <- _]].
  destruct (heap σ !! p) as [rt |]; [| by intros [= <- _]].
  unfold bind at 1, append_mws.
  destruct (go_append _ _ _ _ _) as [A s'].
  unfold bind, assign, ret. simpl.
  case_decide; by intros [= <- _].
Qed.

Lemma Add_muxes r (routes : list Ptr) σ σ' res :
  Add r routes σ = (σ', res) → muxes σ' = muxes σ.
Proof.
  unfold Add, bind at 1.
  destruct (reject_nil _ routes σ) as [σ1 r1] eqn:Hrej.
  assert (σ1 = σ) as ->.
  { clear -Hrej. induction routes as [| [x |] routes IH]; simpl in Hrej; [| auto |];
      by injection Hrej. }
  destruct r1 as [[] | msg |]; [| by intros [= <- _] | by intros [= <- _]].
  unfold bind at 1, deref.
  destruct r as [p |]; [| by intros [= <- _]].
  destruct (heap σ !! p) as [rt |]; [| by intros [= <- _]].
  unfold bind at 1, append_routes.
  destruct (go_append _ _ _ _ _) as [A s'].
  unfold bind, assign, ret. simpl.
  case_decide; by intros [= <- _].
Qed.

Lemma slice_wfb_wf {X} (arrs : list (list X)) s :
  slice_wfb arrs s = true → slice_wf arrs s.
Proof.
  unfold slice_wfb, slice_wf.
  intros [Hle%bool_decide_eq_true Hc]%andb_prop. split; [done |].
  apply orb_prop in Hc as [Hc%bool_decide_eq_true | Hc]; [by left | right].
  destruct (arrs !! s_arr s) as [cells |]; [| done].
  apply bool_decide_eq_true in Hc. eauto.
Qed.

Lemma read_tree_repr fuel σ : ∀ r t, read_tree fuel σ r = Some t → tree_at σ r t.
Proof.
  unfold tree_at.
  induction fuel as [| fuel IH]; intros r t; [done |].
  destruct r as [p |]; [| done]. simpl.
  destruct (heap σ !! p) as [rt |] eqn:Hp; [| done].
  destruct (slice_wfb (mw_arrays σ) (Middlewares rt)) eqn:Hwf; [| done].
  destruct (mapM _ _) as [kids |] eqn:Hkids; [| done].
  intros [= <-]. constructor; [done | by apply slice_wfb_wf |].
  apply mapM_Some_1 in Hkids. eapply Forall2_impl; [exact Hkids |]. auto.
Qed.

(** ** The middleware composer *)

Lemma nested_snoc mws (m : @Middleware HttpHandler) (next : HttpHandler) :
  nested (mws ++ [m]) next =
    match call_middleware m next with
    | Ok inner => nested mws inner
    | Panic msg => Panic msg
    | OutOfFuel => OutOfFuel
    end.
Proof.
  unfold nested. rewrite foldr_app. simpl.
  destruct (call_middleware m next) as [inner | msg |]; [done | |];
    induction mws as [| m' mws IH]; simpl; [done | by rewrite IH | done | by rewrite IH].
Qed.

Lemma applyMiddleware_loop_nested mws : ∀ i (next : HttpHandler),
  i ≤ length mws →
  applyMiddleware_loop mws i next = nested (take i mws) next.
Proof.
  unfold Middleware in *.
  induction i as [| j IH]; intros next Hi; [done |].
  cbn [applyMiddleware_loop].
  match goal with |- match ?o with _ => _ end = _ => destruct o as [m |] eqn:Hm end.
  - rewrite (take_S_r _ _ _ Hm), nested_snoc.
    destruct m as [x |]; simpl; [| done]. apply IH. lia.
  - apply lookup_ge_None in Hm. lia.
Qed.

Lemma applyMiddleware_nested mws (next : HttpHandler) :
  applyMiddleware mws next = nested mws next.
Proof.
  unfold applyMiddleware. rewrite applyMiddleware_loop_nested by done.
  by rewrite take_ge.
Qed.

Lemma nested_Some (fs : list (HttpHandler → HttpHandler)) (next : HttpHandler) :
  nested (map Some fs) next = Ok (foldr (λ f acc, f acc) next fs).
Proof.
  unfold nested. induction fs as [| f fs IH]; simpl; [done | by rewrite IH].
Qed.

(** ** Runs that return

    Without a nil middleware in the tree and with a router that accepts
    every pattern, a run with fuel for the height of the tree returns. *)








(** ** The builders [Use] and [Add] *)

Lemma reject_nil_panics {X} msg (xs : list (option X)) σ :
  None ∈ xs → reject_nil msg xs σ = (σ, Panic msg).
Proof.
  induction xs as [| [x |] xs IH]; simpl.
  - by intros ?%elem_of_nil.
  - intros [? | ?]%elem_of_cons; [done | auto].
  - done.
Qed.

Lemma reject_nil_passes {X} msg (xs : list (option X)) σ :
  None ∉ xs → reject_nil msg xs σ = (σ, Ok tt).
Proof.
  induction xs as [| [x |] xs IH]; simpl; [done | |].
  - intros Hx. apply IH. intros ?. apply Hx. by right.
  - intros Hx. exfalso. apply Hx. by left.
Qed.

Lemma Use_appends p rt mws σ :
  heap σ !! p = Some rt → None ∉ mws →
  slice_wf (mw_arrays σ) (Middlewares rt) →
  ∃ σ' rt',
    Use (Some p) mws σ = (σ', Ok (Some p)) ∧
    heap σ' = <[p := rt']> (heap σ) ∧
    slice_elems (mw_arrays σ') (Middlewares rt') =
      slice_elems (mw_arrays σ) (Middlewares rt) ++ mws ∧
    slice_wf (mw_arrays σ') (Middlewares rt') ∧
    Path rt' = Path rt ∧ Routes rt' = Routes rt ∧
    Handler rt' = Handler rt ∧ Method rt' = Method rt ∧
    rt_arrays σ' = rt_arrays σ ∧ muxes σ' = muxes σ ∧ calls σ' = calls σ.
Proof.
  intros Hp Hnil Hwf. unfold Use, bind at 1.
  rewrite reject_nil_passes by done.
  unfold bind at 1, deref. rewrite Hp.
  unfold bind at 1, append_mws.
  destruct (go_append spare None (mw_arrays σ) (Middlewares rt) mws) as [A s'] eqn:Happ.
  unfold bind, assign, ret. simpl.
  rewrite decide_True by (by eapply lookup_lt_Some).
  eexists _, _. split; [done |]. simpl. split_and!; try done.
  - eapply go_append_elems; eauto.
  - eapply go_append_wf; eauto.
Qed.

Lemma Add_appends p rt (routes : list Ptr) σ :
  heap σ !! p = Some rt → None ∉ routes →
  slice_wf (rt_arrays σ) (Routes rt) →
  ∃ σ' rt',
    Add (Some p) routes σ = (σ', Ok (Some p)) ∧
    heap σ' = <[p := rt']> (heap σ) ∧
    slice_elems (rt_arrays σ') (Routes rt') =
      slice_elems (rt_arrays σ) (Routes rt) ++ routes ∧
    slice_wf (rt_arrays σ') (Routes rt') ∧
    Path rt' = Path rt ∧ Middlewares rt' = Middlewares rt ∧
    Handler rt' = Handler rt ∧ Method rt' = Method rt ∧
    mw_arrays σ' = mw_arrays σ ∧ muxes σ' = muxes σ ∧ calls σ' = calls σ.
Proof.
  intros Hp Hnil Hwf. unfold Add, bind at 1.
  rewrite reject_nil_passes by done.
  unfold bind at 1, deref. rewrite Hp.
  unfold bind at 1, append_routes.
  destruct (go_append spare None (rt_arrays σ) (Routes rt) routes) as [A s'] eqn:Happ.
  unfold bind, assign, ret. simpl.
  rewrite decide_True by (by eapply lookup_lt_Some).
  eexists _, _. split; [done |]. simpl. split_and!; try done.
  - eapply go_append_elems; eauto.
  - eapply go_append_wf; eauto.
Qed.

(** C7: [Use] panics when a supplied middleware is nil and [Add] when a
    supplied route is nil, and the store is then exactly as before the call,
    whatever the receiver and wherever the nil stands in the arguments; when
    no argument is nil and the receiver is a node, the call returns the
    receiver, the node's list is the old one followed by the arguments in
    the order supplied, and the node is otherwise unchanged. *)
Theorem Use_Add_atomic σ r p rt mws (routes : list Ptr) :
  (None ∈ mws →
     Use r mws σ = (σ, Panic "middlewares parameter cannot contain nil middlewares")) ∧
  (None ∈ routes →
     Add r routes σ = (σ, Panic "routes parameter cannot contain nil routes")) ∧
  (heap σ !! p = Some rt → None ∉ mws → slice_wf (mw_arrays σ) (Middlewares rt) →
     ∃ σ' rt',
       Use (Some p) mws σ = (σ', Ok (Some p)) ∧
       heap σ' = <[p := rt']> (heap σ) ∧
       slice_elems (mw_arrays σ') (Middlewares rt') =
         slice_elems (mw_arrays σ) (Middlewares rt) ++ mws ∧
       slice_elems (rt_arrays σ') (Routes rt') = slice_elems (rt_arrays σ) (Routes rt) ∧
       Path rt' = Path rt ∧ Handler rt' = Handler rt ∧ Method rt' = Method rt) ∧
  (heap σ !! p = Some rt → None ∉ routes → slice_wf (rt_arrays σ) (Routes rt) →
     ∃ σ' rt',
       Add (Some p) routes σ = (σ', Ok (Some p)) ∧
       heap σ' = <[p := rt']> (heap σ) ∧
       slice_elems (rt_arrays σ') (Routes rt') =
         slice_elems (rt_arrays σ) (Routes rt) ++ routes ∧
       slice_elems (mw_arrays σ') (Middlewares rt') =
         slice_elems (mw_arrays σ) (Middlewares rt) ∧
       Path rt' = Path rt ∧ Handler rt' = Handler rt ∧ Method rt' = Method rt).
Proof.
  split_and!.
  - intros Hnil. unfold Use, bind. by rewrite reject_nil_panics.
  - intros Hnil. unfold Add, bind. by rewrite reject_nil_panics.
  - intros Hp Hnil Hwf.
    destruct (Use_appends _ _ _ _ Hp Hnil Hwf)
      as (σ' & rt' & ? & ? & ? & ? & ? & HR & ? & ? & HRA & ? & ?).
    exists σ', rt'. split_and!; try done. by rewrite HR, HRA.
  - intros Hp Hnil Hwf.
    destruct (Add_appends _ _ _ _ Hp Hnil Hwf)
      as (σ' & rt' & ? & ? & ? & ? & ? & HM & ? & ? & HMA & ? & ?).
    exists σ', rt'. split_and!; try done. by rewrite HM, HMA.
Qed.

(** ** The entry points *)

(** C8: [MountAndWalk] with a nil callback panics at once, whatever the
    fuel, the receiver and the store: the store is exactly as before, so no
    router was created, no call was made to a callback or to a router, and
    the tree is unchanged; and no router is returned. *)
Theorem MountAndWalk_nil_panics fuel r σ :
  MountAndWalk fuel r NilWalkFn σ = (σ, Panic "walkFn parameter cannot be nil").
Proof. done. Qed.

Lemma join_paths_app ns1 ns2 : join_paths (ns1 ++ ns2) = join_paths ns1 +:+ join_paths ns2.
Proof.
  unfold join_paths. induction ns1 as [| n ns1 IH]; cbn [foldr app]; [done |].
  by rewrite IH, string_app_assoc.
Qed.

Lemma join_paths_length ns :
  String.length (join_paths ns) = sum_list (map (λ n, String.length (t_path n)) ns).
Proof.
  unfold join_paths. induction ns as [| n ns IH]; cbn [foldr map sum_list]; [done |].
  by rewrite string_app_length, IH.
Qed.


(** C3: when a run over a tree returns, the pattern registered for a
    handler-bearing node is the node's method token, a space, and the
    concatenation of the path segments of the nodes from the root down to
    and including the node; that concatenation starts from the empty string,
    is the plain append of the segments in order, and inserts no character:
    its length is the sum of the lengths of the segments. *)
Theorem paths_concatenated σ r t fuel walkFn σ' res :
  tree_at σ r t → height t ≤ fuel →
  mounts fuel r walkFn σ (σ', res) →
  res ≠ OutOfFuel ∧
  ∀ m, res = Ok m →
    ∃ regs, muxes σ' !! m = Some regs ∧
      Forall2 (λ vh reg,
                 reg.1 = t_method vh.1.2 +:+ " " +:+ join_paths (vh.1.1 ++ [vh.1.2]) ∧
                 join_paths (vh.1.1 ++ [vh.1.2]) = join_paths vh.1.1 +:+ t_path vh.1.2 ∧
                 String.length (join_paths (vh.1.1 ++ [vh.1.2])) =
                   sum_list (map (λ n, String.length (t_path n)) (vh.1.1 ++ [vh.1.2])))
              (bearing (visits [] t)) regs ∧
      @join_paths HttpHandler [] = "" ∧
      ∀ ns1 ns2 : list (@Tree HttpHandler),
        join_paths (ns1 ++ ns2) = join_paths ns1 +:+ join_paths ns2.
Proof.
  intros Ht Hf Hm. split; [by eapply mounts_total |]. intros m ->.
  destruct (mounted_registrations _ _ _ _ _ _ _ Ht Hf Hm) as (regs & Hregs & Hall).
  exists regs. split_and!; [done | | done | apply join_paths_app].
  eapply Forall2_impl; [exact Hall |]. intros [[anc n] h] reg [Hpat _].
  split_and!; [done | apply join_paths_snoc | apply join_paths_length].
Qed.

Lemma space_prefix_differs (path : string) : " " +:+ path ≠ path.
Proof.
  intros Heq. apply (f_equal String.length) in Heq.
  rewrite string_app_length in Heq. simpl in Heq. lia.
Qed.

(** C4, as amended: when a run over a tree returns, the pattern registered
    for a handler-bearing node is always the node's method token, one space,
    and the accumulated path; for the empty method token this is one space
    followed by the path, which is not the path alone. *)
Theorem pattern_registered σ r t fuel walkFn σ' res :
  tree_at σ r t → height t ≤ fuel →
  mounts fuel r walkFn σ (σ', res) →
  res ≠ OutOfFuel ∧
  ∀ m, res = Ok m →
    ∃ regs, muxes σ' !! m = Some regs ∧
      Forall2 (λ vh reg,
                 reg.1 = t_method vh.1.2 +:+ " " +:+ join_paths (chain vh.1) ∧
                 (t_method vh.1.2 = "" →
                    reg.1 = " " +:+ join_paths (chain vh.1) ∧
                    reg.1 ≠ join_paths (chain vh.1)))
              (bearing (visits [] t)) regs.
Proof.
  intros Ht Hf Hm. split; [by eapply mounts_total |]. intros m ->.
  destruct (mounted_registrations _ _ _ _ _ _ _ Ht Hf Hm) as (regs & Hregs & Hall).
  exists regs. split; [done |].
  eapply Forall2_impl; [exact Hall |]. intros [[anc n] h] reg [Hpat _].
  split; [done |]. intros Hempty. unfold pattern_of in Hpat. rewrite Hempty in Hpat.
  rewrite Hpat. split; [done |]. apply space_prefix_differs.
Qed.

(** C10: when a run over a tree returns, the pattern registered for a
    handler-bearing node starts with the method token of that node itself,
    followed by a space and the accumulated path; the ancestors enter the
    pattern through their path segments only, so that two chains of
    ancestors with the same segments give the same pattern whatever their
    method tokens. *)
Theorem method_not_inherited σ r t fuel walkFn σ' res :
  tree_at σ r t → height t ≤ fuel →
  mounts fuel r walkFn σ (σ', res) →
  res ≠ OutOfFuel ∧
  ∀ m, res = Ok m →
    ∃ regs, muxes σ' !! m = Some regs ∧
      Forall2 (λ vh reg, reg.1 = t_method vh.1.2 +:+ " " +:+ join_paths (chain vh.1))
              (bearing (visits [] t)) regs ∧
      ∀ (anc anc' : list (@Tree HttpHandler)) n,
        map t_path anc = map t_path anc' →
        pattern_of (anc, n) = pattern_of (anc', n).
Proof.
  intros Ht Hf Hm. split; [by eapply mounts_total |]. intros m ->.
  destruct (mounted_registrations _ _ _ _ _ _ _ Ht Hf Hm) as (regs & Hregs & Hall).
  exists regs. split_and!; [done | |].
  - eapply Forall2_impl; [exact Hall |]. by intros [[anc n] h] reg [Hpat _].
  - intros anc anc' n Heq. unfold pattern_of, chain. simpl.
    rewrite !join_paths_snoc. do 3 f_equal.
    unfold join_paths. revert anc' Heq.
    induction anc as [| a anc IH]; intros [| a' anc'] Heq; simplify_eq/=; [done |].
    f_equal; auto.
Qed.




(** C9: on any heap and with any fuel, a run of [Mount] or [MountAndWalk],
    returning or not, leaves every node as it was: the heap, hence each
    node's path, method, handler and slice headers, the arrays of routes,
    and every array of middlewares that existed, so that every slice reads
    as before and every tree is still there.  The router it returns is a
    new one, and the routers that existed keep their registrations.  Hence,
    after a router is returned, a change to the tree by [Use] or [Add] and a
    later run leave that router with the registrations it had, and the later
    run returns another router. *)
Theorem mounting_leaves_tree σ r walkFn fuel σ1 res :
  mounts fuel r walkFn σ (σ1, res) →
  (heap σ1 = heap σ ∧ rt_arrays σ1 = rt_arrays σ ∧
   (∃ extra, mw_arrays σ1 = mw_arrays σ ++ extra) ∧
   (∀ s, slice_wf (mw_arrays σ) s →
         slice_elems (mw_arrays σ1) s = slice_elems (mw_arrays σ) s) ∧
   (∀ r0 t, tree_at σ r0 t → tree_at σ1 r0 t)) ∧
  ((∀ m0, m0 < length (muxes σ) → muxes σ1 !! m0 = muxes σ !! m0) ∧
   (∀ m, res = Ok m → muxes σ !! m = None ∧ is_Some (muxes σ1 !! m))) ∧
  (∀ m r1 mws (routes : list Ptr) σ2 res2 fuel' r2 walkFn' σ3 m',
     res = Ok m →
     Use r1 mws σ1 = (σ2, res2) ∨ Add r1 routes σ1 = (σ2, res2) →
     mounts fuel' r2 walkFn' σ2 (σ3, Ok m') →
     m' ≠ m ∧ muxes σ3 !! m = muxes σ1 !! m).
Proof.
  intros Hm.
  destruct (mounts_quiet _ _ _ _ _ _ Hm) as (HH & HRA & [extra HMA] & [new Hmux] & Hres).
  split_and!.
  - done.
  - done.
  - by exists extra.
  - intros s [Hle [Hc | (cells & Hcells & Hb)]]; unfold slice_elems.
    + replace (s_len s) with 0 by lia. done.
    + unfold array_at. by rewrite HMA, (lookup_app_l_Some _ _ _ _ Hcells), Hcells.
  - intros r0 t Ht. unfold tree_at in *. rewrite HH, HRA, HMA. by apply repr_extend.
  - intros m0 Hm0. rewrite Hmux. by apply lookup_app_l.
  - intros m [-> ?]%Hres. split; [| done]. by apply lookup_ge_None.
  - intros m r1 mws routes σ2 res2 fuel' r2 walkFn' σ3 m' [-> [regs Hregs]]%Hres Hbuild Hm'.
    assert (muxes σ2 = muxes σ1) as Hsame.
    { destruct Hbuild as [HU | HA]; [by eapply Use_muxes | by eapply Add_muxes]. }
    destruct (mounts_quiet _ _ _ _ _ _ Hm') as (_ & _ & _ & [new' Hmux'] & Hres').
    destruct (Hres' m' eq_refl) as [-> _].
    apply lookup_lt_Some in Hregs as Hlt. rewrite Hsame. split; [lia |].
    rewrite Hmux', Hsame. by apply lookup_app_l.
Qed.

(** * Beyond the claims: the rest of the package *)

(** ** The composer on concatenations and on nil *)

Lemma nested_app mws1 mws2 (h : HttpHandler) :
  nested (mws1 ++ mws2) h =
    match nested mws2 h with
    | Ok inner => nested mws1 inner
    | Panic msg => Panic msg
    | OutOfFuel => OutOfFuel
    end.
Proof.
  unfold nested. rewrite foldr_app.
  destruct (foldr _ (Ok h) mws2) as [inner | msg |]; [done | |];
    induction mws1 as [| m mws1 IH]; simpl; [done | by rewrite IH | done | by rewrite IH].
Qed.

Lemma nested_cases mws (h : HttpHandler) :
  ((None ∉ mws) ∧ ∃ composed, nested mws h = Ok composed) ∨
  (None ∈ mws ∧ nested mws h = Panic nil_deref).
Proof.
  induction mws as [| [x |] mws IH].
  - left. split; [apply not_elem_of_nil | by eexists].
  - destruct IH as [[Hnil [c Hc]] | [Hnil Hp]].
    + left. split.
      * intros [[=] | ?]%elem_of_cons. done.
      * unfold nested in *. simpl. rewrite Hc. by eexists.
    + right. split; [by right |]. unfold nested in *. simpl. by rewrite Hp.
  - right. split; [by left |].
    unfold nested in *. simpl.
    destruct IH as [[_ [c ->]] | [_ ->]]; done.
Qed.

(** X1: composing the concatenation of two lists of middlewares around a
    handler is composing the second list around it and then the first list
    around the result; a panic of the inner composition is the panic of the
    whole.  This is how the middlewares of the ancestors come to wrap those
    of a node. *)
Theorem applyMiddleware_app mws1 mws2 (h : HttpHandler) :
  applyMiddleware (mws1 ++ mws2) h =
    match applyMiddleware mws2 h with
    | Ok inner => applyMiddleware mws1 inner
    | Panic msg => Panic msg
    | OutOfFuel => OutOfFuel
    end.
Proof.
  rewrite !applyMiddleware_nested, nested_app.
  destruct (nested mws2 h); [by rewrite applyMiddleware_nested | done | done].
Qed.

(** X2: the composer panics, with a nil dereference, exactly when the list
    holds a nil middleware, wherever it stands; otherwise it returns a
    handler.  It has no other outcome. *)
Theorem applyMiddleware_nil mws (h : HttpHandler) :
  (applyMiddleware mws h = Panic nil_deref ↔ None ∈ mws) ∧
  ((∃ composed, applyMiddleware mws h = Ok composed) ↔ None ∉ mws).
Proof.
  rewrite applyMiddleware_nested.
  destruct (nested_cases mws h) as [[Hnil [c Hc]] | [Hnil Hp]]; split; split.
  - by rewrite Hc.
  - done.
  - done.
  - by eexists.
  - done.
  - done.
  - rewrite Hp. by intros [c ?].
  - done.
Qed.

(** ** The builders at their edges *)

Lemma go_append_nothing {X} (sp : nat → nat → nat) (zero : X) (arrs : list (list X)) s :
  s_len s ≤ s_cap s → go_append sp zero arrs s [] = (arrs, s).
Proof.
  intros Hle. unfold go_append. simpl. rewrite decide_True by lia. f_equal.
  - by apply list_alter_id.
  - destruct s as [a o l c]. simpl. f_equal. lia.
Qed.

(** X3: [Use] and [Add] without arguments change nothing: the call returns
    the receiver and the store is the one before the call. *)
Theorem Use_Add_nothing σ p rt :
  heap σ !! p = Some rt →
  s_len (Middlewares rt) ≤ s_cap (Middlewares rt) →
  s_len (Routes rt) ≤ s_cap (Routes rt) →
  Use (Some p) [] σ = (σ, Ok (Some p)) ∧ Add (Some p) [] σ = (σ, Ok (Some p)).
Proof.
  intros Hp Hm Hr. split.
  - unfold Use, bind at 1. simpl. unfold bind at 1, deref. rewrite Hp.
    unfold bind at 1, append_mws. rewrite go_append_nothing by done.
    unfold bind, assign, ret. simpl.
    rewrite decide_True by (by eapply lookup_lt_Some).
    rewrite list_insert_id by (by destruct rt). by destruct σ.
  - unfold Add, bind at 1. simpl. unfold bind at 1, deref. rewrite Hp.
    unfold bind at 1, append_routes. rewrite go_append_nothing by done.
    unfold bind, assign, ret. simpl.
    rewrite decide_True by (by eapply lookup_lt_Some).
    rewrite list_insert_id by (by destruct rt). by destruct σ.
Qed.

(** X4: on a nil receiver, [Use] and [Add] with arguments that are not nil
    panic with a nil dereference and leave the store as it was; [Mount] and
    [MountAndWalk] with a callback panic with a nil dereference too, after
    the router was created: nothing was registered in it, no call was made
    and the rest of the store is as it was. *)
Theorem nil_receiver σ mws (routes : list Ptr) fuel fn :
  None ∉ mws → None ∉ routes →
  Use None mws σ = (σ, Panic nil_deref) ∧
  Add None routes σ = (σ, Panic nil_deref) ∧
  Mount (S fuel) None σ =
    (mkStore (heap σ) (mw_arrays σ) (rt_arrays σ) (muxes σ ++ [[]]) (calls σ),
     Panic nil_deref) ∧
  MountAndWalk (S fuel) None (Callback fn) σ =
    (mkStore (heap σ) (mw_arrays σ) (rt_arrays σ) (muxes σ ++ [[]]) (calls σ),
     Panic nil_deref).
Proof.
  intros Hm Hr. split_and!; [| | done | done].
  - unfold Use, bind at 1. by rewrite reject_nil_passes.
  - unfold Add, bind at 1. by rewrite reject_nil_passes.
Qed.

(** ** The constructors *)

Lemma repr_heap_snoc (H : list (@Route HttpHandler)) (RA : list (list Ptr))
    (MA : list (list (@Middleware HttpHandler))) rt0 t :
  ∀ r, repr H RA MA r t → repr (H ++ [rt0]) RA MA r t.
Proof.
  induction t as [p seg own h m kids IH] using Tree_forall_ind.
  intros r Hr. inversion Hr as [p' rt kids' Hp Hs Hkids]; subst.
  constructor; [by apply lookup_app_l_Some | done |].
  clear Hr. induction Hkids as [| r k ptrs kids Hk _ IHkids]; constructor.
  - apply Forall_cons in IH as [IHk _]. auto.
  - apply Forall_cons in IH as [_ IH]. auto.
Qed.

Lemma new_route_leaf σ path (handler : option HttpHandler) method :
  ∃ σ',
    new_route (mkRoute path empty_slice empty_slice handler method) σ =
      (σ', Ok (Some (length (heap σ)))) ∧
    heap σ !! length (heap σ) = None ∧
    tree_at σ' (Some (length (heap σ)))
      (Node (length (heap σ)) path [] handler method []) ∧
    (∀ r t, tree_at σ r t → tree_at σ' r t) ∧
    mw_arrays σ' = mw_arrays σ ∧ rt_arrays σ' = rt_arrays σ ∧
    muxes σ' = muxes σ ∧ calls σ' = calls σ.
Proof.
  eexists. split; [reflexivity |]. simpl. split_and!; try done.
  - by apply lookup_ge_None.
  - unfold tree_at. simpl.
    apply (repr_node _ _ _ (length (heap σ))
             (mkRoute path empty_slice empty_slice handler method) []).
    + by apply list_lookup_middle.
    + apply empty_slice_wf.
    + constructor.
  - intros r t Ht. unfold tree_at in *. simpl. by apply repr_heap_snoc.
Qed.

(** X5: [NewRoute] and each of the ten per-method constructors never panic
    and return a pointer that was not in use; it points to a new leaf with
    the given path (the empty path for a constructor), no middleware, no
    child, the given handler (none for [NewRoute], possibly nil for a
    constructor) and the method token of the constructor (empty for
    [NewRoute] and [All]); every tree of the store is still there. *)
Theorem constructors_fresh σ path (handler : option HttpHandler) ctor token :
  (ctor, token) ∈ constructors →
  heap σ !! length (heap σ) = None ∧
  (∃ σ', NewRoute path σ = (σ', Ok (Some (length (heap σ)))) ∧
         tree_at σ' (Some (length (heap σ))) (Node (length (heap σ)) path [] None "" []) ∧
         (∀ r t, tree_at σ r t → tree_at σ' r t)) ∧
  (∃ σ', ctor handler σ = (σ', Ok (Some (length (heap σ)))) ∧
         tree_at σ' (Some (length (heap σ)))
           (Node (length (heap σ)) "" [] handler token []) ∧
         (∀ r t, tree_at σ r t → tree_at σ' r t)).
Proof.
  intros Hin. split_and!.
  - by apply lookup_ge_None.
  - destruct (new_route_leaf σ path None "") as (σ' & ? & _ & ? & ? & _). eauto.
  - assert (ctor = method_route token) as ->.
    { unfold constructors in Hin.
      repeat (apply elem_of_cons in Hin as [[= -> ->] | Hin]; [done |]).
      by apply elem_of_nil in Hin. }
    destruct (new_route_leaf σ "" handler token) as (σ' & ? & _ & ? & ? & _). eauto.
Qed.

(** ** Stores as the builders leave them *)

Lemma frame_apart_elems {X} s (arrs arrs' : list (list X)) s2 :
  frame s arrs arrs' → slice_wf arrs s → slice_wf arrs s2 → apart s s2 →
  slice_elems arrs' s2 = slice_elems arrs s2.
Proof.
  intros [_ Hf] [Hle _] [Hle2 [Hc2 | (cells & Hcells & Hb)]] Hap.
  - unfold slice_elems. replace (s_len s2) with 0 by lia. done.
  - destruct (Hf _ _ Hcells) as (cells' & Hcells' & Hlen & Hk).
    apply list_eq. intros i. rewrite !slice_elems_lookup.
    case_decide; [| done]. unfold array_at. rewrite Hcells, Hcells'. simpl.
    apply Hk. unfold cell_kept. destruct Hap as [? | [? | ?]]; lia.
Qed.

Lemma go_append_apart {X} (sp : nat → nat → nat) (zero : X)
    (arrs arrs' : list (list X)) s s' xs s2 :
  go_append sp zero arrs s xs = (arrs', s') →
  slice_wf arrs s2 → apart s s2 → apart s' s2.
Proof.
  unfold go_append, apart. intros Happ [_ Hwf] Hap.
  case_decide; simplify_eq; simpl; [done |].
  destruct Hwf as [? | (cells & Hcells%lookup_lt_Some & _)]; [by right; left |].
  right. right. lia.
Qed.

Lemma apart_sym s1 s2 : apart s1 s2 → apart s2 s1.
Proof. unfold apart. intros [? | [? | ?]]; auto. Qed.

Lemma reject_nil_cases {X} msg (xs : list (option X)) σ :
  (None ∈ xs ∧ reject_nil msg xs σ = (σ, Panic msg)) ∨
  ((None ∉ xs) ∧ reject_nil msg xs σ = (σ, Ok tt)).
Proof.
  induction xs as [| [x |] xs IH]; simpl.
  - right. split; [apply not_elem_of_nil | done].
  - destruct IH as [[? ?] | [Hnil ?]]; [left | right]; split; try done.
    + by right.
    + intros [[=] | ?]%elem_of_cons. done.
  - left. split; [by left | done].
Qed.

Lemma Use_outcome r mws σ σ' res :
  Use r mws σ = (σ', res) →
  (σ' = σ ∧ ∃ msg, res = Panic msg) ∨
  (∃ p rt arrs s',
     r = Some p ∧ heap σ !! p = Some rt ∧ (None ∉ mws) ∧ res = Ok (Some p) ∧
     go_append spare None (mw_arrays σ) (Middlewares rt) mws = (arrs, s') ∧
     σ' = mkStore (<[p := mkRoute (Path rt) s' (Routes rt) (Handler rt) (Method rt)]>
                     (heap σ))
                  arrs (rt_arrays σ) (muxes σ) (calls σ)).
Proof.
  unfold Use, bind at 1.
  destruct (reject_nil_cases "middlewares parameter cannot contain nil middlewares" mws σ)
    as [[_ ->] | [Hnil ->]]; [intros [= <- <-]; left; eauto |].
  unfold bind at 1, deref.
  destruct r as [p |]; [| intros [= <- <-]; left; eauto].
  destruct (heap σ !! p) as [rt |] eqn:Hp; [| intros [= <- <-]; left; eauto].
  unfold bind at 1, append_mws.
  destruct (go_append _ _ _ _ _) as [arrs s'] eqn:Happ.
  unfold bind, assign, ret. simpl.
  rewrite decide_True by (by eapply lookup_lt_Some).
  intros [= <- <-]. right. by exists p, rt, arrs, s'.
Qed.

Lemma Add_outcome r (routes : list Ptr) σ σ' res :
  Add r routes σ = (σ', res) →
  (σ' = σ ∧ ∃ msg, res = Panic msg) ∨
  (∃ p rt arrs s',
     r = Some p ∧ heap σ !! p = Some rt ∧ (None ∉ routes) ∧ res = Ok (Some p) ∧
     go_append spare None (rt_arrays σ) (Routes rt) routes = (arrs, s') ∧
     σ' = mkStore (<[p := mkRoute (Path rt) (Middlewares rt) s' (Handler rt) (Method rt)]>
                     (heap σ))
                  (mw_arrays σ) arrs (muxes σ) (calls σ)).
Proof.
  unfold Add, bind at 1.
  destruct (reject_nil_cases "routes parameter cannot contain nil routes" routes σ)
    as [[_ ->] | [Hnil ->]]; [intros [= <- <-]; left; eauto |].
  unfold bind at 1, deref.
  destruct r as [p |]; [| intros [= <- <-]; left; eauto].
  destruct (heap σ !! p) as [rt |] eqn:Hp; [| intros [= <- <-]; left; eauto].
  unfold bind at 1, append_routes.
  destruct (go_append _ _ _ _ _) as [arrs s'] eqn:Happ.
  unfold bind, assign, ret. simpl.
  rewrite decide_True by (by eapply lookup_lt_Some).
  intros [= <- <-]. right. by exists p, rt, arrs, s'.
Qed.

Lemma well_built_new_route σ path (handler : option HttpHandler) method :
  well_built σ →
  well_built (new_route (mkRoute path empty_slice empty_slice handler method) σ).1.
Proof.
  intros [Hok Hap]. split; simpl.
  - intros p rt [[_ Hp] | [_ <-]]%lookup_snoc_Some.
    + exact (Hok _ _ Hp).
    + split_and!; simpl;
        [apply empty_slice_wf | apply empty_slice_wf | apply not_elem_of_nil
        | apply not_elem_of_nil].
  - intros p q rt rt' Hne [[_ Hp] | [_ <-]]%lookup_snoc_Some
      [[_ Hq] | [_ <-]]%lookup_snoc_Some.
    + by eapply Hap.
    + split; right; by left.
    + split; by left.
    + split; by left.
Qed.

Lemma well_built_Use σ p rt mws arrs s' :
  well_built σ → heap σ !! p = Some rt → None ∉ mws →
  go_append spare None (mw_arrays σ) (Middlewares rt) mws = (arrs, s') →
  well_built
    (mkStore (<[p := mkRoute (Path rt) s' (Routes rt) (Handler rt) (Method rt)]> (heap σ))
             arrs (rt_arrays σ) (muxes σ) (calls σ)).
Proof.
  intros [Hok Hap] Hp Hnil Happ.
  destruct (Hok _ _ Hp) as (Hwf & Hwfr & Hnm & Hnr).
  pose proof (go_append_frame _ _ _ _ _ _ _ Happ) as Hf.
  assert (∀ q rtq,
            <[p := mkRoute (Path rt) s' (Routes rt) (Handler rt) (Method rt)]> (heap σ) !! q
              = Some rtq →
            (q = p ∧ rtq = mkRoute (Path rt) s' (Routes rt) (Handler rt) (Method rt)) ∨
            (q ≠ p ∧ heap σ !! q = Some rtq)) as Hcases.
  { intros q rtq. rewrite list_lookup_insert. case_decide as Hd.
    - destruct Hd as [-> _]. intros [= <-]. by left.
    - intros Hq. right. split; [| done]. intros ->. apply Hd.
      split; [done |]. by eapply lookup_lt_Some. }
  split; simpl.
  - intros q rtq [[-> ->] | [Hne Hq]]%Hcases.
    + assert (@slice_elems Middleware arrs s' =
                slice_elems (mw_arrays σ) (Middlewares rt) ++ mws) as Hel
        by (by eapply go_append_elems).
      split_and!; simpl; [by eapply go_append_wf | done | | done].
      rewrite Hel. intros [? | ?]%elem_of_app; done.
    + destruct (Hok _ _ Hq) as (Hwfq & ? & Hnq & ?).
      destruct (Hap p q rt rtq (not_eq_sym Hne) Hp Hq) as [Hapm _].
      assert (@slice_elems Middleware arrs (Middlewares rtq) =
                slice_elems (mw_arrays σ) (Middlewares rtq)) as Hel
        by (by eapply frame_apart_elems).
      split_and!; simpl; [by eapply frame_wf | done | by rewrite Hel | done].
  - intros q1 q2 rt1 rt2 Hne [[-> ->] | [Hne1 Hq1]]%Hcases [[-> ->] | [Hne2 Hq2]]%Hcases.
    + done.
    + destruct (Hok _ _ Hq2) as (Hwf2 & _).
      destruct (Hap p q2 rt rt2 Hne Hp Hq2) as [Hapm Hapr].
      split; simpl; [by eapply go_append_apart | done].
    + destruct (Hok _ _ Hq1) as (Hwf1 & _).
      destruct (Hap p q1 rt rt1 (not_eq_sym Hne) Hp Hq1) as [Hapm Hapr].
      split; simpl; apply apart_sym; [by eapply go_append_apart | done].
    + exact (Hap _ _ _ _ Hne Hq1 Hq2).
Qed.

Lemma well_built_Add σ p rt (routes : list Ptr) arrs s' :
  well_built σ → heap σ !! p = Some rt → None ∉ routes →
  go_append spare None (rt_arrays σ) (Routes rt) routes = (arrs, s') →
  well_built
    (mkStore (<[p := mkRoute (Path rt) (Middlewares rt) s' (Handler rt) (Method rt)]>
                (heap σ))
             (mw_arrays σ) arrs (muxes σ) (calls σ)).
Proof.
  intros [Hok Hap] Hp Hnil Happ.
  destruct (Hok _ _ Hp) as (Hwfm & Hwf & Hnm & Hnr).
  pose proof (go_append_frame _ _ _ _ _ _ _ Happ) as Hf.
  assert (∀ q rtq,
            <[p := mkRoute (Path rt) (Middlewares rt) s' (Handler rt) (Method rt)]>
              (heap σ) !! q = Some rtq →
            (q = p ∧ rtq = mkRoute (Path rt) (Middlewares rt) s' (Handler rt) (Method rt)) ∨
            (q ≠ p ∧ heap σ !! q = Some rtq)) as Hcases.
  { intros q rtq. rewrite list_lookup_insert. case_decide as Hd.
    - destruct Hd as [-> _]. intros [= <-]. by left.
    - intros Hq. right. split; [| done]. intros ->. apply Hd.
      split; [done |]. by eapply lookup_lt_Some. }
  split; simpl.
  - intros q rtq [[-> ->] | [Hne Hq]]%Hcases.
    + assert (@slice_elems Ptr arrs s' =
                slice_elems (rt_arrays σ) (Routes rt) ++ routes) as Hel
        by (by eapply go_append_elems).
      split_and!; simpl; [done | by eapply go_append_wf | done |].
      rewrite Hel. intros [? | ?]%elem_of_app; done.
    + destruct (Hok _ _ Hq) as (? & Hwfq & ? & Hnq).
      destruct (Hap p q rt rtq (not_eq_sym Hne) Hp Hq) as [_ Hapr].
      assert (@slice_elems Ptr arrs (Routes rtq) =
                slice_elems (rt_arrays σ) (Routes rtq)) as Hel
        by (by eapply frame_apart_elems).
      split_and!; simpl; [done | by eapply frame_wf | done | by rewrite Hel].
  - intros q1 q2 rt1 rt2 Hne [[-> ->] | [Hne1 Hq1]]%Hcases [[-> ->] | [Hne2 Hq2]]%Hcases.
    + done.
    + destruct (Hok _ _ Hq2) as (_ & Hwf2 & _).
      destruct (Hap p q2 rt rt2 Hne Hp Hq2) as [Hapm Hapr].
      split; simpl; [done | by eapply go_append_apart].
    + destruct (Hok _ _ Hq1) as (_ & Hwf1 & _).
      destruct (Hap p q1 rt rt1 (not_eq_sym Hne) Hp Hq1) as [Hapm Hapr].
      split; simpl; apply apart_sym; [done | by eapply go_append_apart].
    + exact (Hap _ _ _ _ Hne Hq1 Hq2).
Qed.

Lemma well_built_empty : well_built (mkStore (HttpHandler := HttpHandler) [] [] [] [] []).
Proof. split; [intros p rt Hp | intros p q rt rt' _ Hp _]; by destruct p. Qed.

(** X6: the builders keep a store well built: starting from an empty store,
    after any calls to [NewRoute], to the per-method constructors, to [Use]
    and to [Add], whatever their arguments and whether they return or panic,
    every node's two slices exist, hold no nil, and share no backing array
    with the slices of another node. *)
Theorem builders_keep_well_built σ σ' :
  well_built (mkStore (HttpHandler := HttpHandler) [] [] [] [] []) ∧
  (well_built σ →
   (∃ path res, NewRoute path σ = (σ', res)) ∨
   (∃ ctor token handler res, (ctor, token) ∈ constructors ∧ ctor handler σ = (σ', res)) ∨
   (∃ r mws res, Use r mws σ = (σ', res)) ∨
   (∃ r (routes : list Ptr) res, Add r routes σ = (σ', res)) →
   well_built σ').
Proof.
  split; [apply well_built_empty |].
  intros Hwb [(path & res & Hn) | [(ctor & token & handler & res & Hin & Hc)
                | [(r & mws & res & HU) | (r & routes & res & HA)]]].
  - pose proof (well_built_new_route σ path None "" Hwb) as Hwb'.
    unfold NewRoute in Hn. by rewrite Hn in Hwb'.
  - assert (ctor = method_route token) as ->.
    { unfold constructors in Hin.
      repeat (apply elem_of_cons in Hin as [[= -> ->] | Hin]; [done |]).
      by apply elem_of_nil in Hin. }
    pose proof (well_built_new_route σ "" handler token Hwb) as Hwb'.
    unfold method_route in Hc. by rewrite Hc in Hwb'.
  - apply Use_outcome in HU
      as [[-> _] | (p & rt & arrs & s' & -> & Hp & Hnil & -> & Happ & ->)]; [done |].
    by eapply well_built_Use.
  - apply Add_outcome in HA
      as [[-> _] | (p & rt & arrs & s' & -> & Hp & Hnil & -> & Happ & ->)]; [done |].
    by eapply well_built_Add.
Qed.

(** X7: in a well-built store, a [Use] or an [Add] on a node that returns
    changes no other node: each other node has the same fields and reads the
    same middlewares and the same children as before. *)
Theorem Use_Add_elsewhere σ σ' p mws (routes : list Ptr) res q rtq :
  well_built σ →
  Use (Some p) mws σ = (σ', Ok res) ∨ Add (Some p) routes σ = (σ', Ok res) →
  q ≠ p → heap σ !! q = Some rtq →
  heap σ' !! q = Some rtq ∧
  slice_elems (mw_arrays σ') (Middlewares rtq) =
    slice_elems (mw_arrays σ) (Middlewares rtq) ∧
  slice_elems (rt_arrays σ') (Routes rtq) = slice_elems (rt_arrays σ) (Routes rtq).
Proof.
  intros [Hok Hap] Hcall Hne Hq.
  destruct (Hok _ _ Hq) as (Hwfm & Hwfr & _).
  destruct Hcall as [HU | HA].
  - apply Use_outcome in HU
      as [[_ [msg [=]]] | (p' & rt & arrs & s' & [= <-] & Hp & Hnil & _ & Happ & ->)].
    destruct (Hok _ _ Hp) as (Hwf & _).
    destruct (Hap p q rt rtq (not_eq_sym Hne) Hp Hq) as [Hapm _].
    simpl. split_and!; [by rewrite list_lookup_insert_ne | | done].
    eapply frame_apart_elems; eauto. by eapply go_append_frame.
  - apply Add_outcome in HA
      as [[_ [msg [=]]] | (p' & rt & arrs & s' & [= <-] & Hp & Hnil & _ & Happ & ->)].
    destruct (Hok _ _ Hp) as (_ & Hwf & _).
    destruct (Hap p q rt rtq (not_eq_sym Hne) Hp Hq) as [_ Hapr].
    simpl. split_and!; [by rewrite list_lookup_insert_ne | done |].
    eapply frame_apart_elems; eauto. by eapply go_append_frame.
Qed.

(** ** Mounting what the builders built *)




(** ** Trees without handlers *)

Lemma visits_subtrees t : ∀ anc, map snd (visits anc t) = subtrees t.
Proof.
  induction t as [p seg own h m kids IH] using Tree_forall_ind. intros anc.
  cbn [visits subtrees map t_kids snd]. f_equal.
  generalize (anc ++ [Node p seg own h m kids]). intros anc'.
  induction IH as [| k kids Hk _ IHkids]; [done |].
  cbn [map concat]. rewrite map_app, Hk, IHkids. done.
Qed.

Lemma exec_walks router walkFn vs : ∀ σ,
  Forall (λ v, t_handler v.2 = None) vs →
  exec router (concat (map (visit_actions walkFn) vs)) σ =
    (mkStore (heap σ) (mw_arrays σ) (rt_arrays σ) (muxes σ)
             (calls σ ++ concat (map (walk_call walkFn) vs)),
     Ok tt).
Proof.
  induction vs as [| v vs IH]; intros σ Hvs.
  - simpl. rewrite (right_id_L [] (++)). by destruct σ.
  - apply Forall_cons in Hvs as [Hv Hvs]. cbn [map concat].
    rewrite exec_app. unfold visit_actions, walk_call. rewrite Hv.
    destruct walkFn as [| fn]; simpl.
    + rewrite IH by done. done.
    + rewrite IH by done. simpl. by rewrite <- (assoc_L (++)).
Qed.

(** X9: over a tree in which no node has a handler, [Mount] and
    [MountAndWalk] with a callback always return, whatever the router
    accepts and even with nil middlewares in the tree: the new router has no
    registration, [Mount] makes no call at all, and [MountAndWalk] calls the
    callback once per node and the router never. *)
Theorem no_handlers_empty_router σ r t fuel fn :
  tree_at σ r t → height t ≤ fuel → no_handlers t →
  (∃ σ', Mount fuel r σ = (σ', Ok (length (muxes σ))) ∧
         muxes σ' = muxes σ ++ [[]] ∧ calls σ' = calls σ) ∧
  (∃ σ', MountAndWalk fuel r (Callback fn) σ = (σ', Ok (length (muxes σ))) ∧
         muxes σ' = muxes σ ++ [[]] ∧
         calls σ' = calls σ ++ concat (map (walk_call (Callback fn)) (visits [] t))).
Proof.
  intros Ht Hf Hno.
  assert (Forall (λ v : list (@Tree HttpHandler) * @Tree HttpHandler,
                    t_handler v.2 = None) (visits [] t)) as Hvs.
  { unfold no_handlers in Hno. rewrite <- (visits_subtrees t []) in Hno.
    apply Forall_forall. intros v Hv.
    rewrite Forall_forall in Hno. apply Hno.
    apply list_elem_of_In, in_map, list_elem_of_In, Hv. }
  split.
  - rewrite Mount_compile.
    destruct (compile_exec σ r t fuel NilWalkFn Ht Hf) as (A & ->).
    rewrite exec_walks by done. eexists. split; [done |]. simpl. split; [done |].
    assert (concat (map (walk_call NilWalkFn) (visits [] t)) = []) as ->.
    { clear. induction (visits [] t) as [| v vs IH]; [done | exact IH]. }
    by rewrite (right_id_L [] (++)).
  - rewrite MountAndWalk_compile.
    destruct (compile_exec σ r t fuel (Callback fn) Ht Hf) as (A & ->).
    rewrite exec_walks by done. eexists. split; [done |]. done.
Qed.

(** ** When mounting panics on a nil middleware *)







(** ** The callback does not change what is mounted *)















(** ** Cycles *)

Lemma inspectRoute_cycle σ (C : nat → Prop) :
  (∀ p, C p → ∃ rt q rest,
     heap σ !! p = Some rt ∧ Handler rt = None ∧
     slice_elems (rt_arrays σ) (Routes rt) = Some q :: rest ∧ C q) →
  ∀ fuel p path s router walkFn σ1,
    heap σ1 = heap σ → rt_arrays σ1 = rt_arrays σ → C p →
    (inspectRoute fuel (Some p) path s router walkFn σ1).2 = OutOfFuel.
Proof.
  intros Hcycle. induction fuel as [| fuel IH];
    intros p path s router walkFn σ1 Hh Hr Hp; [done |].
  destruct (Hcycle p Hp) as (rt & q & rest & Hrt & Hnone & Hkids & Hq).
  cbn [inspectRoute]. unfold bind at 1, deref. rewrite Hh, Hrt.
  unfold bind at 1, read_mws. unfold bind at 1, append_mws.
  destruct (go_append spare None (mw_arrays σ1) s
              (slice_elems (mw_arrays σ1) (Middlewares rt))) as [arrs chained].
  set (σa := mkStore (heap σ1) arrs (rt_arrays σ1) (muxes σ1) (calls σ1)).
  unfold bind at 1.
  assert (∃ σb, match walkFn with
                | Callback fn => call_walk fn (Some p) path s
                | NilWalkFn => ret tt
                end σa = (σb, Ok tt) ∧ heap σb = heap σ ∧ rt_arrays σb = rt_arrays σ)
    as (σb & -> & Hhb & Hrb).
  { destruct walkFn; eexists; (split; [reflexivity | done]). }
  rewrite Hnone. unfold bind at 1, ret at 1. unfold bind at 1, read_routes.
  rewrite Hrb, Hkids. cbn [for_each]. unfold bind at 1.
  specialize (IH q (path +:+ Path rt) chained router walkFn σb Hhb Hrb Hq).
  destruct (inspectRoute fuel (Some q) (path +:+ Path rt) chained router walkFn σb)
    as [σc res]. simpl in IH. by subst res.
Qed.

(** X12: the traversal does not detect cycles.  From a node of a set of
    handler-less nodes, each of which has a first child in the set,
    [Mount] and [MountAndWalk] never return, whatever the fuel: the Go
    recursion descends until the stack overflows. *)
Theorem cycle_never_mounts σ (C : nat → Prop) p fuel fn :
  (∀ p, C p → ∃ rt q rest,
     heap σ !! p = Some rt ∧ Handler rt = None ∧
     slice_elems (rt_arrays σ) (Routes rt) = Some q :: rest ∧ C q) →
  C p →
  (Mount fuel (Some p) σ).2 = OutOfFuel ∧
  (MountAndWalk fuel (Some p) (Callback fn) σ).2 = OutOfFuel.
Proof.
  intros Hcycle Hp. unfold Mount, MountAndWalk, bind at 1 3, NewServeMux.
  split.
  - unfold bind at 1.
    pose proof (inspectRoute_cycle σ C Hcycle fuel p "" empty_slice (length (muxes σ))
                  NilWalkFn (mkStore (heap σ) (mw_arrays σ) (rt_arrays σ)
                                     (muxes σ ++ [[]]) (calls σ)) eq_refl eq_refl Hp) as E.
    destruct (inspectRoute _ _ _ _ _ _ _) as [σc res]. simpl in E. by subst res.
  - unfold bind at 1.
    pose proof (inspectRoute_cycle σ C Hcycle fuel p "" empty_slice (length (muxes σ))
                  (Callback fn) (mkStore (heap σ) (mw_arrays σ) (rt_arrays σ)
                                     (muxes σ ++ [[]]) (calls σ)) eq_refl eq_refl Hp) as E.
    destruct (inspectRoute _ _ _ _ _ _ _) as [σc res]. simpl in E. by subst res.
Qed.

(** ** A panic at a node *)


(** ** Mounting again *)



End Facts.

Lemma trackers_serve (names : list string) (h : Served) : ∀ w,
  foldr (λ f acc, f acc) h
    (map (λ name (next : Served) w, next (w.1 ++ [name], w.2)) names) w =
  h (w.1 ++ names, w.2).
Proof.
  induction names as [| name names IH]; intros [log body]; simpl.
  - by rewrite (right_id_L [] (++)).
  - rewrite IH. simpl. by rewrite <- (assoc_L (++)).
Qed.

(** C1: for every list of middlewares [m0; ...; mN-1] and every handler
    [h], the composer yields [m0(m1(...mN-1(h)))] ([nested], built from the
    last element to the first, a nil middleware panicking when it is
    called); for non-nil middlewares this is the right fold of function
    application; the empty list gives [h] itself; and served, the
    composition of the tests' tracking middlewares logs their names in list
    order before [h] runs. *)
Theorem applyMiddleware_composition :
  (∀ (H : Type) (mws : list (@Middleware H)) (h : H),
     applyMiddleware mws h = nested mws h) ∧
  (∀ (H : Type) (fs : list (H → H)) (h : H),
     applyMiddleware (map Some fs) h = Ok (foldr (λ f acc, f acc) h fs)) ∧
  (∀ (H : Type) (h : H), applyMiddleware [] h = Ok h) ∧
  (∀ (names : list string) (h : Served),
     ∃ composed, applyMiddleware (map middlewareTracker names) h = Ok composed ∧
                 ∀ w, composed w = h (w.1 ++ names, w.2)).
Proof.
  split_and!.
  - intros H mws h. apply applyMiddleware_nested.
  - intros H fs h. by rewrite applyMiddleware_nested, nested_Some.
  - done.
  - intros names h. eexists. split.
    + replace (map middlewareTracker names)
        with (map Some (map (λ name (next : Served) w, next (w.1 ++ [name], w.2)) names))
        by (by rewrite map_map).
      rewrite applyMiddleware_nested. apply nested_Some.
    + intros w. apply trackers_serve.
Qed.


(** ** The examples *)

Lemma walk_tree_at : tree_at walk_store (Some 0) walk_tree.
Proof. apply (read_tree_repr 3). reflexivity. Qed.

Lemma all_tree_at : tree_at all_store (Some 0) all_tree.
Proof. apply (read_tree_repr 3). reflexivity. Qed.

Lemma mounts_Mount {H : Type} {RT : Runtime H} fuel r (σ : @Store H) :
  mounts fuel r NilWalkFn σ ((Mount fuel r σ).1, (Mount fuel r σ).2).
Proof. left. split; [done |]. by destruct (Mount fuel r σ). Qed.



(** The paths of the walk example, as registered by [Mount]. *)
Lemma paths_concatenated_witness :
  tree_at walk_store (Some 0) walk_tree ∧ height walk_tree ≤ 3 ∧
  ∃ regs, muxes (Mount 3 (Some 0) walk_store).1 !! 0 = Some regs ∧
    Forall2 (λ vh reg,
               reg.1 = t_method vh.1.2 +:+ " " +:+ join_paths (vh.1.1 ++ [vh.1.2]) ∧
               join_paths (vh.1.1 ++ [vh.1.2]) = join_paths vh.1.1 +:+ t_path vh.1.2 ∧
               String.length (join_paths (vh.1.1 ++ [vh.1.2])) =
                 sum_list (map (λ n, String.length (t_path n)) (vh.1.1 ++ [vh.1.2])))
            (bearing (visits [] walk_tree)) regs ∧
    @join_paths Served [] = "" ∧
    ∀ ns1 ns2 : list (@Tree Served),
      join_paths (ns1 ++ ns2) = join_paths ns1 +:+ join_paths ns2.
Proof.
  split; [exact walk_tree_at |]. split; [vm_compute; lia |].
  apply (paths_concatenated walk_store (Some 0) walk_tree 3 NilWalkFn
           (Mount 3 (Some 0) walk_store).1 (Mount 3 (Some 0) walk_store).2).
  - exact walk_tree_at.
  - vm_compute. lia.
  - apply mounts_Mount.
  - reflexivity.
Defined.

(** The patterns of the test "route with All method handler". *)
Lemma pattern_registered_witness :
  tree_at all_store (Some 0) all_tree ∧ height all_tree ≤ 2 ∧
  ∃ regs, muxes (Mount 2 (Some 0) all_store).1 !! 0 = Some regs ∧
    Forall2 (λ vh reg,
               reg.1 = t_method vh.1.2 +:+ " " +:+ join_paths (chain vh.1) ∧
               (t_method vh.1.2 = "" →
                  reg.1 = " " +:+ join_paths (chain vh.1) ∧
                  reg.1 ≠ join_paths (chain vh.1)))
            (bearing (visits [] all_tree)) regs.
Proof.
  split; [exact all_tree_at |]. split; [vm_compute; lia |].
  apply (pattern_registered all_store (Some 0) all_tree 2 NilWalkFn
           (Mount 2 (Some 0) all_store).1 (Mount 2 (Some 0) all_store).2).
  - exact all_tree_at.
  - vm_compute. lia.
  - apply mounts_Mount.
  - reflexivity.
Defined.

(** In the test "route with All method handler" the pattern registered for
    the [All] route is " /api/foo", with its leading space, where the
    specification's wording gives "/api/foo". *)
Lemma pattern_claim_counterexample :
  ¬ (∀ (σ σ' : @Store Served) r t fuel m regs,
       tree_at σ r t → height t ≤ fuel →
       Mount fuel r σ = (σ', Ok m) → muxes σ' !! m = Some regs →
       Forall2 (λ vh reg,
                  reg.1 = claimed_pattern (t_method vh.1.2) (join_paths (chain vh.1)))
               (bearing (visits [] t)) regs).
Proof.
  intros Hclaim.
  specialize (Hclaim all_store (Mount 2 (Some 0) all_store).1 (Some 0) all_tree 2 0
                [("GET /api/foo", handlerWriter "foo get");
                 (" /api/foo", handlerWriter "foo all")]
                all_tree_at).
  assert (height all_tree ≤ 2) as Hh by (vm_compute; lia).
  specialize (Hclaim Hh eq_refl eq_refl).
  assert (bearing (visits [] all_tree) !! 1 =
            Some (([all_tree], Node 2 "" [] (Some (handlerWriter "foo all")) "" []),
                  handlerWriter "foo all")) as Hv by reflexivity.
  eapply Forall2_lookup_lr in Hclaim; [| exact Hv | reflexivity].
  vm_compute in Hclaim. discriminate.
Qed.

Lemma method_tree_at : tree_at method_store (Some 0) method_tree.
Proof. apply (read_tree_repr 3). reflexivity. Qed.

(** Below a GET node, the POST node is registered as "POST /x": the method
    token of the ancestor is not carried down. *)
Lemma method_not_inherited_witness :
  tree_at method_store (Some 0) method_tree ∧ height method_tree ≤ 3 ∧
  (∃ regs, muxes (Mount 3 (Some 0) method_store).1 !! 0 = Some regs ∧
     Forall2 (λ vh reg, reg.1 = t_method vh.1.2 +:+ " " +:+ join_paths (chain vh.1))
             (bearing (visits [] method_tree)) regs ∧
     ∀ (anc anc' : list (@Tree Served)) n,
       map t_path anc = map t_path anc' →
       pattern_of (anc, n) = pattern_of (anc', n)) ∧
  map fst (default [] (muxes (Mount 3 (Some 0) method_store).1 !! 0)) =
    ["GET "; "POST /x"].
Proof.
  split; [exact method_tree_at |]. split; [vm_compute; lia |].
  split; [| reflexivity].
  apply (method_not_inherited method_store (Some 0) method_tree 3 NilWalkFn
           (Mount 3 (Some 0) method_store).1 (Mount 3 (Some 0) method_store).2).
  - exact method_tree_at.
  - vm_compute. lia.
  - apply mounts_Mount.
  - reflexivity.
Defined.



(** The tests' [Use(m1, nil)] and [Add(valid, nil)] on the root of the walk
    example, and a valid [Use] and [Add] on it. *)
Lemma Use_Add_atomic_witness :
  (None ∈ [middlewareTracker "m1"; None] ∧
   Use (Some 0) [middlewareTracker "m1"; None] walk_store =
     (walk_store, Panic "middlewares parameter cannot contain nil middlewares")) ∧
  (None ∈ [Some 4; None] ∧
   Add (Some 0) [Some 4; None] walk_store =
     (walk_store, Panic "routes parameter cannot contain nil routes")) ∧
  (∃ σ' (rt' : @Route Served),
     Use (Some 0) [middlewareTracker "m1"] walk_store = (σ', Ok (Some 0)) ∧
     slice_elems (mw_arrays σ') (Middlewares rt') =
       [middlewareTracker "generalMiddleware"; middlewareTracker "m1"]) ∧
  (∃ σ' (rt' : @Route Served),
     Add (Some 0) [Some 4] walk_store = (σ', Ok (Some 0)) ∧
     slice_elems (rt_arrays σ') (Routes rt') = [Some 1; Some 3; Some 4]).
Proof.
  assert (None ∈ [middlewareTracker "m1"; None]) as Hmw by (right; left).
  assert (None ∈ [Some 4; None]) as Hrt by (right; left).
  assert (None ∉ [middlewareTracker "m1"]) as Hmw'.
  { intros [[=] | []%elem_of_nil]%elem_of_cons. }
  assert (None ∉ [Some 4]) as Hrt'.
  { intros [[=] | []%elem_of_nil]%elem_of_cons. }
  pose (rt := mkRoute (HttpHandler := Served) "/api" (mkSlice 0 0 1 1) (mkSlice 2 0 2 2) None "").
  assert (slice_wf (mw_arrays walk_store) (Middlewares rt)) as Hwf1.
  { apply slice_wfb_wf. reflexivity. }
  assert (slice_wf (rt_arrays walk_store) (Routes rt)) as Hwf2.
  { apply slice_wfb_wf. reflexivity. }
  destruct (Use_Add_atomic walk_store (Some 0) 0 rt [middlewareTracker "m1"; None]
              [Some 4; None]) as (HU & HA & _ & _).
  destruct (Use_Add_atomic walk_store (Some 0) 0 rt [middlewareTracker "m1"] [Some 4])
    as (_ & _ & HU' & HA').
  split_and!; [done | by apply HU | done | by apply HA | |].
  - destruct (HU' eq_refl Hmw' Hwf1) as (σ' & rt' & ? & _ & Hel & _).
    exists σ', rt'. split; [done |]. rewrite Hel. reflexivity.
  - destruct (HA' eq_refl Hrt' Hwf2) as (σ' & rt' & ? & _ & Hel & _).
    exists σ', rt'. split; [done |]. rewrite Hel. reflexivity.
Defined.

(** Mounting the walk example twice with a [Use] in between. *)
Lemma mounting_leaves_tree_witness :
  let σ1 := (Mount 3 (Some 0) walk_store).1 in
  let σ2 := (Use (Some 0) [middlewareTracker "m1"] σ1).1 in
  let σ3 := (Mount 3 (Some 0) σ2).1 in
  mounts 3 (Some 0) NilWalkFn walk_store (σ1, (Mount 3 (Some 0) walk_store).2) ∧
  heap σ1 = heap walk_store ∧ rt_arrays σ1 = rt_arrays walk_store ∧
  (∃ extra, mw_arrays σ1 = mw_arrays walk_store ++ extra) ∧
  tree_at σ1 (Some 0) walk_tree ∧
  (Mount 3 (Some 0) σ2).2 = Ok 1 ∧ 1 ≠ 0 ∧ muxes σ3 !! 0 = muxes σ1 !! 0.
Proof.
  intros σ1 σ2 σ3.
  destruct (mounting_leaves_tree walk_store (Some 0) NilWalkFn 3 σ1
              (Mount 3 (Some 0) walk_store).2)
    as ((? & ? & ? & _ & Htree) & _ & Hlater); [apply mounts_Mount |].
  destruct (Hlater 0 (Some 0) [middlewareTracker "m1"] [] σ2
              (Use (Some 0) [middlewareTracker "m1"] σ1).2
              3 (Some 0) NilWalkFn σ3 1) as [? ?].
  - reflexivity.
  - left. by destruct (Use (Some 0) [middlewareTracker "m1"] σ1).
  - left. split; [done |]. reflexivity.
  - split_and!; [apply mounts_Mount | done | done | done | | reflexivity | done | done].
    apply Htree. exact walk_tree_at.
Defined.

(** The accumulated slice of "/api/foo" has capacity six and length four:
    the [append] for the GET route writes C into its fifth cell and the one
    for the POST route overwrites it with D.  The GET handler was composed
    before that and keeps C. *)
Example siblings_share_array :
  let σ := (Mount 3 (Some 0) sibling_store).1 in
  mw_arrays σ !! 5 =
    Some [middlewareTracker "A1"; middlewareTracker "A2"; middlewareTracker "A3";
          middlewareTracker "B"; middlewareTracker "D"; None] ∧
  served σ 0 =
    [("GET /api/foo", (["A1"; "A2"; "A3"; "B"; "C"], "get"));
     ("POST /api/foo", (["A1"; "A2"; "A3"; "B"; "D"], "post"))].
Proof. split; reflexivity. Qed.

(** The walk example, served: the console output its source documents. *)
Example walk_example_served :
  served (MountAndWalk 3 (Some 0) (Callback "walker") walk_store).1 0 =
    [("GET /api/foo",
      (["generalMiddleware"; "fooMiddleware"; "getFooMiddleware"], "getFooHandler"));
     ("POST /api/bar", (["generalMiddleware"; "barMiddleware"], "postBarHandler"))].
Proof. reflexivity. Qed.

(** Without the tree shape a node is visited once for each way down to it:
    the route added twice to its parent is walked twice. *)
Example shared_node_walked_twice :
  read_tree 2 shared_store (Some 0) =
    Some (Node 0 "/a" [] None ""
            [Node 1 "" [] (Some (handlerWriter "get")) "GET" [];
             Node 1 "" [] (Some (handlerWriter "get")) "GET" []]) ∧
  walk_events (calls (MountAndWalk 2 (Some 0) (Callback "walker") shared_store).1) =
    [EvWalk "walker" (Some 0) "" [];
     EvWalk "walker" (Some 1) "/a" [];
     EvWalk "walker" (Some 1) "/a" []].
Proof. split; reflexivity. Qed.

(** ** The examples beyond the claims *)

Ltac no_nil :=
  repeat (apply not_elem_of_cons; split; [discriminate |]); apply not_elem_of_nil.

Ltac normalise_store H :=
  match type of H with
  | well_built ?s =>
      let s' := eval vm_compute in s in
      replace s with s' in H by (vm_compute; reflexivity)
  end.

Ltac built_new_route H path handler method :=
  apply (well_built_new_route _ path handler method) in H; normalise_store H.

Ltac built_Use H p mws :=
  eapply (well_built_Use _ p _ mws) in H;
    [normalise_store H | reflexivity | no_nil | vm_compute; reflexivity].

Ltac built_Add H p routes :=
  eapply (well_built_Add _ p _ routes) in H;
    [normalise_store H | reflexivity | no_nil | vm_compute; reflexivity].

(** The store of the walk example is well built, one builder call after
    the other. *)
Lemma walk_store_well_built : well_built walk_store.
Proof.
  pose proof (well_built_empty (HttpHandler := Served)) as H.
  built_new_route H "/api" (@None Served) "".
  built_Use H 0 [middlewareTracker "generalMiddleware"].
  built_new_route H "/foo" (@None Served) "".
  built_Use H 1 [middlewareTracker "fooMiddleware"].
  built_new_route H "" (Some (handlerWriter "getFooHandler")) "GET".
  built_Use H 2 [middlewareTracker "getFooMiddleware"].
  built_Add H 1 [Some 2].
  built_new_route H "/bar" (@None Served) "".
  built_Use H 3 [middlewareTracker "barMiddleware"].
  built_new_route H "" (Some (handlerWriter "postBarHandler")) "POST".
  built_Add H 3 [Some 4].
  built_Add H 0 [Some 1; Some 3].
  let s := eval vm_compute in walk_store in
  replace walk_store with s by (vm_compute; reflexivity).
  exact H.
Qed.

Lemma bare_tree_at : tree_at bare_store (Some 0) bare_tree.
Proof. apply (read_tree_repr 2). reflexivity. Qed.


(** A nil after a tracker: the composition panics. *)
Lemma applyMiddleware_nil_witness :
  None ∈ [middlewareTracker "a"; None] ∧
  applyMiddleware [middlewareTracker "a"; None] (handlerWriter "h") = Panic nil_deref.
Proof.
  split; [apply list_elem_of_further, list_elem_of_here |].
  apply (proj2 (proj1 (applyMiddleware_nil [middlewareTracker "a"; None]
                         (handlerWriter "h")))).
  apply list_elem_of_further, list_elem_of_here.
Defined.

(** [Use()] and [Add()] on the root of the walk example. *)
Lemma Use_Add_nothing_witness :
  ∃ rt, heap walk_store !! 0 = Some rt ∧
        s_len (Middlewares rt) ≤ s_cap (Middlewares rt) ∧
        s_len (Routes rt) ≤ s_cap (Routes rt) ∧
        Use (Some 0) [] walk_store = (walk_store, Ok (Some 0)) ∧
        Add (Some 0) [] walk_store = (walk_store, Ok (Some 0)).
Proof.
  let rt := eval vm_compute in (heap walk_store !! 0) in
  match rt with Some ?rt => exists rt end.
  split; [vm_compute; reflexivity |].
  split; [vm_compute; lia |]. split; [vm_compute; lia |].
  eapply (Use_Add_nothing walk_store 0);
    [vm_compute; reflexivity | vm_compute; lia | vm_compute; lia].
Defined.

(** The builders and the entry points on a nil route, from the store of the
    walk example. *)
Lemma nil_receiver_witness :
  (None ∉ [middlewareTracker "m"]) ∧ (None ∉ [Some 0]) ∧
  Use None [middlewareTracker "m"] walk_store = (walk_store, Panic nil_deref) ∧
  Add None [Some 0] walk_store = (walk_store, Panic nil_deref) ∧
  Mount 3 None walk_store =
    (mkStore (heap walk_store) (mw_arrays walk_store) (rt_arrays walk_store)
             (muxes walk_store ++ [[]]) (calls walk_store),
     Panic nil_deref) ∧
  MountAndWalk 3 None (Callback "walker") walk_store =
    (mkStore (heap walk_store) (mw_arrays walk_store) (rt_arrays walk_store)
             (muxes walk_store ++ [[]]) (calls walk_store),
     Panic nil_deref).
Proof.
  split; [no_nil |]. split; [no_nil |].
  apply (nil_receiver walk_store [middlewareTracker "m"] [Some 0] 2 "walker"); no_nil.
Defined.

(** [NewRoute("/x")] and [Post(h)] after the walk example: the sixth node. *)
Lemma constructors_fresh_witness :
  (Post, "POST") ∈ constructors (HttpHandler := Served) ∧
  heap walk_store !! 5 = None ∧
  (∃ σ', NewRoute "/x" walk_store = (σ', Ok (Some 5)) ∧
         tree_at σ' (Some 5) (Node 5 "/x" [] None "" []) ∧
         (∀ r t, tree_at walk_store r t → tree_at σ' r t)) ∧
  (∃ σ', Post (Some (handlerWriter "h")) walk_store = (σ', Ok (Some 5)) ∧
         tree_at σ' (Some 5) (Node 5 "" [] (Some (handlerWriter "h")) "POST" []) ∧
         (∀ r t, tree_at walk_store r t → tree_at σ' r t)).
Proof.
  assert ((Post, "POST") ∈ constructors (HttpHandler := Served)) as Hin.
  { unfold constructors. do 2 apply list_elem_of_further. apply list_elem_of_here. }
  split; [exact Hin |].
  exact (constructors_fresh walk_store "/x" (Some (handlerWriter "h")) Post "POST" Hin).
Defined.

(** A late [Use] on the GET route of the walk example. *)
Lemma builders_keep_well_built_witness :
  well_built walk_store ∧
  well_built (Use (Some 2) [middlewareTracker "late"] walk_store).1.
Proof.
  split; [exact walk_store_well_built |].
  apply (proj2 (builders_keep_well_built walk_store
                  (Use (Some 2) [middlewareTracker "late"] walk_store).1));
    [exact walk_store_well_built |].
  right. right. left.
  exists (Some 2), [middlewareTracker "late"],
    (Use (Some 2) [middlewareTracker "late"] walk_store).2.
  apply surjective_pairing.
Defined.

(** A late [Use] on the root of the walk example leaves "/foo" as it was. *)
Lemma Use_Add_elsewhere_witness :
  well_built walk_store ∧
  ∃ rtq, heap walk_store !! 1 = Some rtq ∧
    heap (Use (Some 0) [middlewareTracker "late"] walk_store).1 !! 1 = Some rtq ∧
    slice_elems (mw_arrays (Use (Some 0) [middlewareTracker "late"] walk_store).1)
                (Middlewares rtq) =
      slice_elems (mw_arrays walk_store) (Middlewares rtq) ∧
    slice_elems (rt_arrays (Use (Some 0) [middlewareTracker "late"] walk_store).1)
                (Routes rtq) =
      slice_elems (rt_arrays walk_store) (Routes rtq).
Proof.
  split; [exact walk_store_well_built |].
  let rt := eval vm_compute in (heap walk_store !! 1) in
  match rt with Some ?rt => exists rt end.
  split; [vm_compute; reflexivity |].
  apply (Use_Add_elsewhere walk_store _ 0 [middlewareTracker "late"] [] (Some 0) 1 _
           walk_store_well_built).
  - left. vm_compute. reflexivity.
  - lia.
  - vm_compute. reflexivity.
Defined.


(** Two routes and a middleware but no handler: the router stays empty. *)
Lemma no_handlers_empty_router_witness :
  tree_at bare_store (Some 0) bare_tree ∧ height bare_tree ≤ 2 ∧
  no_handlers bare_tree ∧
  (∃ σ', Mount 2 (Some 0) bare_store = (σ', Ok 0) ∧
         muxes σ' = [[]] ∧ calls σ' = []) ∧
  (∃ σ', MountAndWalk 2 (Some 0) (Callback "walker") bare_store = (σ', Ok 0) ∧
         muxes σ' = [[]] ∧
         calls σ' = [EvWalk "walker" (Some 0) "" [];
                     EvWalk "walker" (Some 1) "/api" [middlewareTracker "m"]]).
Proof.
  assert (height bare_tree ≤ 2) as Hh by (vm_compute; lia).
  assert (no_handlers bare_tree) as Hno by (unfold no_handlers; repeat constructor).
  split; [exact bare_tree_at |]. split; [exact Hh |]. split; [exact Hno |].
  exact (no_handlers_empty_router bare_store (Some 0) bare_tree 2 "walker"
           bare_tree_at Hh Hno).
Defined.


(** The route added to itself. *)
Lemma cycle_never_mounts_witness :
  (∀ p, p = 0 → ∃ rt q rest,
     heap cycle_store !! p = Some rt ∧ Handler rt = None ∧
     slice_elems (rt_arrays cycle_store) (Routes rt) = Some q :: rest ∧ q = 0) ∧
  (Mount 1000 (Some 0) cycle_store).2 = OutOfFuel ∧
  (MountAndWalk 1000 (Some 0) (Callback "walker") cycle_store).2 = OutOfFuel.
Proof.
  assert (∀ p, p = 0 → ∃ rt q rest,
            heap cycle_store !! p = Some rt ∧ Handler rt = None ∧
            slice_elems (rt_arrays cycle_store) (Routes rt) = Some q :: rest ∧ q = 0)
    as Hcycle.
  { intros p ->.
    let rt := eval vm_compute in (heap cycle_store !! 0) in
    match rt with Some ?rt => exists rt, 0, [] end.
    split; [vm_compute; reflexivity |]. split; [reflexivity |].
    split; [vm_compute; reflexivity | reflexivity]. }
  split; [exact Hcycle |].
  exact (cycle_never_mounts cycle_store (λ p, p = 0) 0 1000 "walker" Hcycle eq_refl).
Defined.



